(** * WalletAdapter: wallet-file lifecycle and backup rotation

    A shallow embedding of [src/WalletAdapter.cpp].  The adapter is glue
    between the GUI, the wallet engine and the file system, so the model is
    an explicit world record (adapter members, settings, file system, an
    event history) that every member function transforms.

    Conventions:
    - [QString] is a list of characters; the [QString] member functions the
      adapter calls are written out in module [QStr];
    - the file system is a finite map from absolute paths to nodes; the Qt
      file operations succeed exactly when their file-system preconditions
      hold (no permission or device errors);
    - the wallet engine is an oracle: a wallet object is the record of the
      outcomes its calls will have, either a value or a thrown
      [std::system_error] with its code;
    - callbacks and queued signals are ordinary calls made one after the
      other; a [lock()] is recorded, and an operation is taken to begin
      with the lock free.  Where a member function takes the lock a second
      time while an operation it has started still holds it ([close],
      [reset]), the wait for that operation's completion is written out. *)

From Stdlib Require Import ZArith Ascii String List Lia.
From stdpp Require Import base decidable option list sorting countable
  strings fin_maps gmap.

Local Open Scope Z_scope.

(** ** QString *)

Abbreviation QString := (list ascii).

Definition qstr (s : string) : QString := list_ascii_of_string s.

Module QStr.

Definition isEmpty (s : QString) : bool :=
  match s with [] => true | _ => false end.

Definition startsWith (s pre : QString) : bool :=
  bool_decide (pre `prefix_of` s).

Definition endsWith (s suf : QString) : bool :=
  bool_decide (suf `suffix_of` s).

(** [lastIndexOf]: the search runs backwards from the end of [s]; the
    result is [-1] when [pat] does not occur. *)
Fixpoint lastIndexDown (s pat : QString) (i : nat) : Z :=
  if startsWith (drop i s) pat then Z.of_nat i
  else match i with
       | O => -1
       | S j => lastIndexDown s pat j
       end.

Definition lastIndexOf (s pat : QString) : Z :=
  lastIndexDown s pat (length s).

(** [replace(pos, len, after)]: a position outside [0 .. size] leaves the
    string as it is, and [len] is cut at the end of the string. *)
Definition replace (s : QString) (pos len : Z) (after : QString) : QString :=
  if (pos <? 0) || (Z.of_nat (length s) <? pos) then s
  else
    let p := Z.to_nat pos in
    let n := Z.to_nat (Z.min len (Z.of_nat (length s) - pos)) in
    take p s ++ after ++ drop (p + n) s.

(** The characters before the first [sep]: [s.section(sep, 0, 0)]. *)
Fixpoint section0 (sep : ascii) (s : QString) : QString :=
  match s with
  | [] => []
  | c :: r => if bool_decide (c = sep) then [] else c :: section0 sep r
  end.

(** Two decimal digits with a leading zero ([dd], [MM], [HH], [mm]) and
    four ([yyyy]), as [QLocale::English] prints them. *)
Definition digit (n : nat) : ascii := ascii_of_nat (48 + n mod 10).
Definition fmt2 (n : nat) : QString :=
  [digit (n / 10); digit n].
Definition fmt4 (n : nat) : QString :=
  [digit (n / 1000); digit (n / 100); digit (n / 10); digit n].

(** Code-unit order of two strings, [QString::compare]. *)
Fixpoint lexLe (a b : QString) : bool :=
  match a, b with
  | [], _ => true
  | _ :: _, [] => false
  | x :: a', y :: b' =>
      if (nat_of_ascii x <? nat_of_ascii y)%nat then true
      else if (nat_of_ascii y <? nat_of_ascii x)%nat then false
      else lexLe a' b'
  end.

End QStr.

(** ** Paths *)

Definition slash : ascii := "/"%char.

(** [QDir::filePath] / [QDir::absoluteFilePath] / [QFileInfo(dir, name)]:
    directories are absolute paths without a trailing slash, the root
    directory is the empty path. *)
Definition filePath (dir name : QString) : QString := dir ++ slash :: name.

(** [QFileInfo::fileName]: what follows the last slash. *)
Definition fileName (p : QString) : QString :=
  reverse (QStr.section0 slash (reverse p)).

(** The directory a path lies in: what precedes the last slash. *)
Definition parentPath (p : QString) : QString :=
  take (length p - S (length (fileName p))) p.

(** ** File system *)

Inductive node : Type :=
| File (content : QString) (mtime : Z)
| Dir.

#[global] Instance node_eq_dec : EqDecision node.
Proof. solve_decision. Defined.

Abbreviation FileSystem := (gmap QString node).

Definition isFile (fs : FileSystem) (p : QString) : bool :=
  match fs !! p with Some (File _ _) => true | _ => false end.

Definition isDir (fs : FileSystem) (p : QString) : bool :=
  match p with
  | [] => true
  | _ => match fs !! p with Some Dir => true | _ => false end
  end.

(** [QFile::exists]. *)
Definition QFile_exists (fs : FileSystem) (p : QString) : bool :=
  match fs !! p with Some _ => true | None => false end.

(** [QDir(p).exists()]. *)
Definition QDir_exists (fs : FileSystem) (p : QString) : bool := isDir fs p.

(** [QDir().mkdir(p)]: creates one directory, the parent must exist. *)
Definition QDir_mkdir (fs : FileSystem) (p : QString) : FileSystem :=
  match fs !! p with
  | Some _ => fs
  | None => if isDir fs (parentPath p) then <[p := Dir]> fs else fs
  end.

(** [QFile::remove]: unlinks a file; a directory is not removed. *)
Definition QFile_remove (fs : FileSystem) (p : QString) : FileSystem :=
  match fs !! p with
  | Some (File _ _) => delete p fs
  | _ => fs
  end.

(** [QFile::copy]: fails when the source is not a file, when the target
    exists, or when the target's directory is missing; [t] is the
    modification time the platform gives the copy. *)
Definition QFile_copy (fs : FileSystem) (src dst : QString) (t : Z)
  : FileSystem :=
  match fs !! src, fs !! dst with
  | Some (File c _), None =>
      if isDir fs (parentPath dst) then <[dst := File c t]> fs else fs
  | _, _ => fs
  end.

(** [QFile::rename]: fails when the target exists. *)
Definition QFile_rename (fs : FileSystem) (old new : QString) : FileSystem :=
  match fs !! old, fs !! new with
  | Some (File c t), None =>
      if isDir fs (parentPath new) then <[new := File c t]> (delete old fs)
      else fs
  | _, _ => fs
  end.

(** ** Directory listing *)

Record QFileInfo : Type := mkInfo {
  absoluteFilePath : QString;
  info_fileName : QString;
  lastModified : Z
}.

#[global] Instance QFileInfo_eq_dec : EqDecision QFileInfo.
Proof. solve_decision. Defined.

(** [QDir::Time]: most recently modified first, equal times by name. *)
Definition timeOrder (a b : QFileInfo) : Prop :=
  lastModified b < lastModified a ∨
  (lastModified a = lastModified b ∧
   QStr.lexLe (info_fileName a) (info_fileName b) = true).

#[global] Instance timeOrder_dec : RelDecision timeOrder.
Proof. intros a b. unfold timeOrder. apply _. Defined.

Section Listing.

(** Qt's wild-card matching of a file name against a name filter
    ([QDir::setNameFilters]); it is Qt's, not the adapter's, and stays a
    parameter. *)
Variable nameMatch : QString → QString → bool.

(** The entry of one file-system node in the listing of [dir] under the
    filter [QDir::Files | QDir::Hidden | QDir::NoSymLinks]: files only,
    lying directly in [dir], with a matching name. *)
Definition entryOf (dir pattern : QString) (kv : QString * node)
  : option QFileInfo :=
  match kv.2 with
  | File _ t =>
      let name := fileName kv.1 in
      if bool_decide (filePath dir name = kv.1) && nameMatch pattern name
      then Some (mkInfo kv.1 name t)
      else None
  | Dir => None
  end.

(** [QDir::entryInfoList] with one name filter and [QDir::Time]. *)
Definition entryInfoList (fs : FileSystem) (dir pattern : QString)
  : list QFileInfo :=
  if isDir fs dir
  then merge_sort timeOrder (omap (entryOf dir pattern) (map_to_list fs))
  else [].

End Listing.

(** ** The wallet engine and the environment *)

(** What a call into the engine does: it returns, or it throws
    [std::system_error] with an error value. *)
Inductive Outcome (A : Type) : Type :=
| Returns (a : A)
| ThrowsSystemError (code : Z).
Arguments Returns {A} a.
Arguments ThrowsSystemError {A} code.

(** [CryptoNote::importLegacyKeys] may also throw [std::runtime_error]. *)
Inductive ImportOutcome : Type :=
| ImportDone (written : QString)
| ImportSystemError (code : Z)
| ImportRuntimeError.

(** A wallet object ([CryptoNote::IWalletLegacy]), given by the outcomes of
    the calls the adapter makes on it.  [w_save] returns the bytes the
    engine writes to the stream. *)
Record IWalletLegacy : Type := {
  w_getAddress : Outcome QString;
  w_actualBalance : Outcome Z;
  w_pendingBalance : Outcome Z;
  w_initAndLoad : QString → Outcome unit;
  w_initAndGenerate : QString → Outcome unit;
  w_save : bool → bool → Outcome QString
}.

Record NodeAdapter : Type := {
  createWallet : IWalletLegacy;
  importLegacyKeys : QString → QString → ImportOutcome
}.

(** [std::error_code]: its value and its message. *)
Record error_code : Type := {
  ec_value : Z;
  ec_message : QString
}.

Record QDateTime : Type := {
  dt_year : nat;
  dt_month : nat;
  dt_day : nat;
  dt_hour : nat;
  dt_minute : nat
}.

(** The clock: the local time [QDateTime::currentDateTime()] returns, the
    modification time a file gets from [QFile::copy], and the one it gets
    when a stream creates or rewrites it. *)
Record Env : Type := {
  currentDateTime : QDateTime;
  copyTime : Z;
  writeTime : Z
}.

(** ** Signals and the event history *)

Inductive Signal : Type :=
| walletStateChangedSignal (text : QString)
| openWalletWithPasswordSignal (encrypted : bool)
| walletInitCompletedSignal (error : Z) (text : QString)
| walletSaveCompletedSignal (error : Z) (text : QString)
| walletActualBalanceUpdatedSignal (balance : Z)
| walletPendingBalanceUpdatedSignal (balance : Z)
| updateWalletAddressSignal (address : QString)
| reloadWalletTransactionsSignal
| updateBlockStatusTextWithDelaySignal
| walletTransactionCreatedSignal (id : Z).

Inductive Event : Type :=
| Lock
| Unlock
| FileOpen (path : QString) (readOnly : bool)
| FileClose
| Emit (sig : Signal)
| SingleShot (msec : Z).

#[global] Instance Signal_eq_dec : EqDecision Signal.
Proof. solve_decision. Defined.

#[global] Instance Event_eq_dec : EqDecision Event.
Proof. solve_decision. Defined.

(** ** The world *)

Record World : Type := mkWorld {
  m_wallet : option IWalletLegacy;
  m_mutex : bool;
  m_file : option (QString * bool);
  m_isBackupInProgress : bool;
  m_isSynchronized : bool;
  m_lastWalletTransactionId : Z;
  walletFile : QString;      (* Settings::getWalletFile *)
  dataDir : QString;         (* Settings::getDataDir, absolute *)
  isEncrypted : bool;        (* Settings::isEncrypted *)
  fs : FileSystem;
  nodeAdapter : NodeAdapter;
  env : Env;
  history : list Event       (* oldest first *)
}.

Definition set_m_wallet (x : option IWalletLegacy) (w : World) : World :=
  mkWorld x (m_mutex w) (m_file w) (m_isBackupInProgress w)
    (m_isSynchronized w) (m_lastWalletTransactionId w) (walletFile w)
    (dataDir w) (isEncrypted w) (fs w) (nodeAdapter w) (env w) (history w).

Definition set_m_mutex (x : bool) (w : World) : World :=
  mkWorld (m_wallet w) x (m_file w) (m_isBackupInProgress w)
    (m_isSynchronized w) (m_lastWalletTransactionId w) (walletFile w)
    (dataDir w) (isEncrypted w) (fs w) (nodeAdapter w) (env w) (history w).

Definition set_m_file (x : option (QString * bool)) (w : World) : World :=
  mkWorld (m_wallet w) (m_mutex w) x (m_isBackupInProgress w)
    (m_isSynchronized w) (m_lastWalletTransactionId w) (walletFile w)
    (dataDir w) (isEncrypted w) (fs w) (nodeAdapter w) (env w) (history w).

Definition set_m_isBackupInProgress (x : bool) (w : World) : World :=
  mkWorld (m_wallet w) (m_mutex w) (m_file w) x
    (m_isSynchronized w) (m_lastWalletTransactionId w) (walletFile w)
    (dataDir w) (isEncrypted w) (fs w) (nodeAdapter w) (env w) (history w).

Definition set_m_lastWalletTransactionId (x : Z) (w : World) : World :=
  mkWorld (m_wallet w) (m_mutex w) (m_file w) (m_isBackupInProgress w)
    (m_isSynchronized w) x (walletFile w)
    (dataDir w) (isEncrypted w) (fs w) (nodeAdapter w) (env w) (history w).

(** [Settings::setWalletFile]. *)
Definition setWalletFile (x : QString) (w : World) : World :=
  mkWorld (m_wallet w) (m_mutex w) (m_file w) (m_isBackupInProgress w)
    (m_isSynchronized w) (m_lastWalletTransactionId w) x
    (dataDir w) (isEncrypted w) (fs w) (nodeAdapter w) (env w) (history w).

(** [Settings::setEncrypted]. *)
Definition setEncrypted (x : bool) (w : World) : World :=
  mkWorld (m_wallet w) (m_mutex w) (m_file w) (m_isBackupInProgress w)
    (m_isSynchronized w) (m_lastWalletTransactionId w) (walletFile w)
    (dataDir w) x (fs w) (nodeAdapter w) (env w) (history w).

Definition set_fs (x : FileSystem) (w : World) : World :=
  mkWorld (m_wallet w) (m_mutex w) (m_file w) (m_isBackupInProgress w)
    (m_isSynchronized w) (m_lastWalletTransactionId w) (walletFile w)
    (dataDir w) (isEncrypted w) x (nodeAdapter w) (env w) (history w).

(** The environment moves on between two calls. *)
Definition set_env (x : Env) (w : World) : World :=
  mkWorld (m_wallet w) (m_mutex w) (m_file w) (m_isBackupInProgress w)
    (m_isSynchronized w) (m_lastWalletTransactionId w) (walletFile w)
    (dataDir w) (isEncrypted w) (fs w) (nodeAdapter w) x (history w).

Definition record (e : Event) (w : World) : World :=
  mkWorld (m_wallet w) (m_mutex w) (m_file w) (m_isBackupInProgress w)
    (m_isSynchronized w) (m_lastWalletTransactionId w) (walletFile w)
    (dataDir w) (isEncrypted w) (fs w) (nodeAdapter w) (env w)
    (history w ++ [e]).

(** [Q_EMIT]. *)
Definition emit (sig : Signal) (w : World) : World := record (Emit sig) w.

(** [delete m_wallet; m_wallet = nullptr;] *)
Definition deleteWallet (w : World) : World := set_m_wallet None w.

(** [std::numeric_limits<quint64>::max()]. *)
Definition quint64_max : Z := 18446744073709551615.

(** Acquisitions of the mutex not yet released, read off a history. *)
Fixpoint lockBalance (h : list Event) : Z :=
  match h with
  | [] => 0
  | Lock :: r => lockBalance r + 1
  | Unlock :: r => lockBalance r - 1
  | _ :: r => lockBalance r
  end.

(** Every file of [fs1] is still a file in [fs2]. *)
Definition filesKept (fs1 fs2 : FileSystem) : Prop :=
  ∀ p, isFile fs1 p = true → isFile fs2 p = true.

(** ** WalletAdapter *)

Section WalletAdapter.

(** [CryptoNote::error::WRONG_PASSWORD], declared in the engine's
    [Wallet/WalletErrors.h] and taken as a parameter.  It labels a [case]
    next to [case 0], so it is not zero; the properties that depend on
    that say so. *)
Variable WRONG_PASSWORD : Z.

Variable nameMatch : QString → QString → bool.

(** *** Read-only queries *)

Definition getAddress (w : World) : QString :=
  match m_wallet w with
  | None => []
  | Some wal =>
      match w_getAddress wal with
      | Returns a => a
      | ThrowsSystemError _ => []
      end
  end.

Definition getActualBalance (w : World) : Z :=
  match m_wallet w with
  | None => 0
  | Some wal =>
      match w_actualBalance wal with
      | Returns b => b
      | ThrowsSystemError _ => 0
      end
  end.

Definition getPendingBalance (w : World) : Z :=
  match m_wallet w with
  | None => 0
  | Some wal =>
      match w_pendingBalance wal with
      | Returns b => b
      | ThrowsSystemError _ => 0
      end
  end.

Definition isOpen (w : World) : bool :=
  match m_wallet w with Some _ => true | None => false end.

(** *** The mutex and the file stream *)

Definition lock (w : World) : World := record Lock (set_m_mutex true w).

Definition unlock (w : World) : World := record Unlock (set_m_mutex false w).

Definition is_open (w : World) : bool :=
  match m_file w with Some _ => true | None => false end.

(** [m_file.open(path, binary | (readOnly ? in : out | trunc))].  On a
    stream that is already open the call fails and the stream keeps its
    file.  Reading needs an existing path: a file or, as with libstdc++ on
    Linux, a directory, from which nothing can then be read.  Writing
    empties an existing file or creates one in an existing directory, and
    fails on a directory. *)
Definition fstream_open (path : QString) (readOnly : bool) (w : World)
  : World :=
  let w := record (FileOpen path readOnly) w in
  match m_file w with
  | Some _ => w
  | None =>
      if readOnly then
        if QFile_exists (fs w) path then set_m_file (Some (path, true)) w
        else w
      else
        match fs w !! path with
        | Some (File _ _) =>
            set_m_file (Some (path, false))
              (set_fs (<[path := File [] (writeTime (env w))]> (fs w)) w)
        | Some Dir => w
        | None =>
            if isDir (fs w) (parentPath path) then
              set_m_file (Some (path, false))
                (set_fs (<[path := File [] (writeTime (env w))]> (fs w)) w)
            else w
        end
  end.

Definition fstream_close (w : World) : World :=
  record FileClose (set_m_file None w).

(** What the engine writes to the stream it was handed. *)
Definition fstream_write (bytes : QString) (w : World) : World :=
  match m_file w with
  | Some (path, false) =>
      set_fs (<[path := File bytes (writeTime (env w))]> (fs w)) w
  | _ => w
  end.

Definition openFile (_file : QString) (_readOnly : bool) (w : World)
  : bool * World :=
  let w := lock w in
  let w := fstream_open _file _readOnly w in
  let w := if negb (is_open w) then unlock w else w in
  (is_open w, w).

Definition closeFile (w : World) : World :=
  unlock (fstream_close w).

(** *** Backup on open *)

Definition backupDir (w : World) : QString :=
  filePath (dataDir w) (qstr "backup").

(** [QLocale(QLocale::English).toString(t, ".dd-MM-yyyy-HH-mm")]. *)
Definition dateTimeStr (t : QDateTime) : QString :=
  qstr "." ++ QStr.fmt2 (dt_day t) ++ qstr "-" ++ QStr.fmt2 (dt_month t)
  ++ qstr "-" ++ QStr.fmt4 (dt_year t) ++ qstr "-" ++ QStr.fmt2 (dt_hour t)
  ++ qstr "-" ++ QStr.fmt2 (dt_minute t).

Definition backupDestination (w : World) : QString :=
  let destination := filePath (backupDir w) (fileName (walletFile w)) in
  QStr.replace destination (QStr.lastIndexOf destination (qstr ".wallet")) 7
    (dateTimeStr (currentDateTime (env w)) ++ qstr ".wallet").

(** Lines 208-221: make the directory, clear the destination, copy. *)
Definition backupCopy (w : World) : World :=
  let fs1 :=
    if negb (QDir_exists (fs w) (backupDir w))
    then QDir_mkdir (fs w) (backupDir w) else fs w in
  let source := walletFile w in
  let destination := backupDestination w in
  let fs2 :=
    if QFile_exists fs1 destination
    then QFile_remove fs1 destination else fs1 in
  set_fs (QFile_copy fs2 source destination (copyTime (env w))) w.

Definition backupFilter (w : World) : QString :=
  let walletFileName := fileName (walletFile w) in
  let walletName := QStr.section0 "."%char walletFileName in
  walletName ++ qstr "*.wallet".

(** The scan of the backup directory, [dir.entryInfoList()]. *)
Definition backupEntries (w : World) : list QFileInfo :=
  entryInfoList nameMatch (fs w) (backupDir w) (backupFilter w).

(** The loop of lines 234-241 over the scanned list. *)
Fixpoint retentionLoop (list : list QFileInfo) (counter : nat)
  (fs : FileSystem) : FileSystem :=
  match list with
  | [] => fs
  | fileInfo :: rest =>
      let counter := S counter in
      let fs :=
        if (10 <? counter)%nat
        then QFile_remove fs (absoluteFilePath fileInfo) else fs in
      retentionLoop rest counter fs
  end.

(** Lines 223-241. *)
Definition backupRetention (w : World) : World :=
  set_fs (retentionLoop (backupEntries w) 0 (fs w)) w.

Definition backupOnOpen (w : World) : World :=
  backupRetention (backupCopy w).

(** *** Saving *)

(** [save(_file, _details, _cache)].  [None]: [m_wallet] is null, which
    [Q_CHECK_PTR] rules out. *)
Definition save_to (_file : QString) (_details _cache : bool) (w : World)
  : option (bool * World) :=
  match m_wallet w with
  | None => None
  | Some wal =>
      match openFile _file false w with
      | (true, w) =>
          match w_save wal _details _cache with
          | Returns bytes =>
              let w := fstream_write bytes w in
              Some (true,
                    emit (walletStateChangedSignal (qstr "Saving data")) w)
          | ThrowsSystemError _ => Some (false, closeFile w)
          end
      | (false, w) => Some (false, w)
      end
  end.

(** [save(_details, _cache)]. *)
Definition save (_details _cache : bool) (w : World)
  : option (bool * World) :=
  save_to (walletFile w ++ qstr ".temp") _details _cache w.

Definition backup (_file : QString) (w : World) : option World :=
  let target :=
    if QStr.endsWith _file (qstr ".wallet") then _file
    else _file ++ qstr ".wallet" in
  match save_to target true false w with
  | Some (true, w) => Some (set_m_isBackupInProgress true w)
  | Some (false, w) => Some w
  | None => None
  end.

(** [Q_ASSERT(QFile::exists(_oldName))] is a debug-build check. *)
Definition renameFile (_oldName _newName : QString) (w : World) : World :=
  let fs1 := QFile_remove (fs w) _newName in
  set_fs (QFile_rename fs1 _oldName _newName) w.

Definition saveCompleted (_error : error_code) (w : World) : World :=
  let w :=
    if (ec_value _error =? 0) && negb (m_isBackupInProgress w) then
      let w := closeFile w in
      let w := renameFile (walletFile w ++ qstr ".temp") (walletFile w) w in
      let w := emit (walletStateChangedSignal (qstr "Ready")) w in
      emit updateBlockStatusTextWithDelaySignal w
    else if m_isBackupInProgress w then
      closeFile (set_m_isBackupInProgress false w)
    else closeFile w in
  emit (walletSaveCompletedSignal (ec_value _error) (ec_message _error)) w.

(** *** Opening *)

Definition importLegacyWallet (_password : QString) (w : World)
  : bool * World :=
  let fileName := walletFile w in
  let w := setEncrypted (negb (QStr.isEmpty _password)) w in
  let fileName :=
    QStr.replace fileName (QStr.lastIndexOf fileName (qstr ".keys")) 5
      (qstr ".wallet") in
  match openFile fileName false w with
  | (false, w) => (false, deleteWallet w)
  | (true, w) =>
      match importLegacyKeys (nodeAdapter w) (walletFile w) _password with
      | ImportDone bytes =>
          let w := fstream_write bytes w in
          let w := closeFile w in
          (true, setWalletFile fileName w)
      | ImportSystemError code =>
          let w := closeFile w in
          let w :=
            if code =? WRONG_PASSWORD then
              emit (openWalletWithPasswordSignal
                      (negb (QStr.isEmpty _password)))
                (setEncrypted true w)
            else w in
          (false, deleteWallet w)
      | ImportRuntimeError =>
          (false, deleteWallet (closeFile w))
      end
  end.

(** Lines 102-110: open the wallet file and hand the stream to the
    engine's [initAndLoad]. *)
Definition loadWalletFile (wal : IWalletLegacy) (_password : QString)
  (w : World) : World :=
  match openFile (walletFile w) true w with
  | (true, w) =>
      match w_initAndLoad wal _password with
      | Returns _ => w
      | ThrowsSystemError _ => deleteWallet (closeFile w)
      end
  | (false, w) => w
  end.

(** [Q_ASSERT(m_wallet == nullptr)] is a debug-build check. *)
Definition open (_password : QString) (w : World) : World :=
  let w := setEncrypted (negb (QStr.isEmpty _password)) w in
  let w := emit (walletStateChangedSignal (qstr "Opening wallet")) w in
  let wal := createWallet (nodeAdapter w) in
  let w := set_m_wallet (Some wal) w in
  if QFile_exists (fs w) (walletFile w) then
    let w := backupOnOpen w in
    if QStr.endsWith (walletFile w) (qstr ".keys") then
      match importLegacyWallet _password w with
      | (false, w) => w
      | (true, w) => loadWalletFile wal _password w
      end
    else loadWalletFile wal _password w
  else
    let w := setEncrypted false w in
    match w_initAndGenerate wal [] with
    | Returns _ => w
    | ThrowsSystemError _ => deleteWallet w
    end.

(** The engine's callback when initialisation has finished. *)
Definition initCompleted (_error : error_code) (w : World) : World :=
  let w := if is_open w then closeFile w else w in
  emit (walletInitCompletedSignal (ec_value _error) (ec_message _error)) w.

(** The slot the queued [walletInitCompletedSignal] runs.  [None]: the
    success branch dereferences a null [m_wallet] or lets an engine
    exception escape. *)
Definition onWalletInitCompleted (_error : Z) (_errorText : QString)
  (w : World) : option World :=
  if _error =? 0 then
    match m_wallet w with
    | None => None
    | Some wal =>
        match w_actualBalance wal, w_pendingBalance wal, w_getAddress wal
        with
        | Returns actual, Returns pending, Returns address =>
            let w := emit (walletActualBalanceUpdatedSignal actual) w in
            let w := emit (walletPendingBalanceUpdatedSignal pending) w in
            let w := emit (updateWalletAddressSignal address) w in
            let w := emit reloadWalletTransactionsSignal w in
            let w := emit (walletStateChangedSignal (qstr "Ready")) w in
            let w := record (SingleShot 5000) w in
            if negb (QFile_exists (fs w) (walletFile w))
            then snd <$> save true true w
            else Some w
        | _, _, _ => None
        end
    end
  else if _error =? WRONG_PASSWORD then
    let w := emit (openWalletWithPasswordSignal (isEncrypted w)) w in
    let w := setEncrypted true w in
    Some (deleteWallet w)
  else Some (deleteWallet w).


(** *** Transaction notification *)

Definition externalTransactionCreated (_transactionId : Z) (w : World)
  : World :=
  if negb (m_isSynchronized w)
  then set_m_lastWalletTransactionId _transactionId w
  else emit (walletTransactionCreatedSignal _transactionId) w.

Definition notifyAboutLastTransaction (w : World) : World :=
  if negb (m_lastWalletTransactionId w =? quint64_max) then
    let w :=
      emit (walletTransactionCreatedSignal (m_lastWalletTransactionId w)) w in
    set_m_lastWalletTransactionId quint64_max w
  else w.

End WalletAdapter.

(** ** Example data *)

(** A wild-card matcher to run the examples with: [*] is any run of
    characters, [?] any one character, every other character itself. *)
Fixpoint wildcardMatch (pattern name : QString) : bool :=
  match pattern with
  | [] => QStr.isEmpty name
  | c :: pattern' =>
      if bool_decide (c = "*"%char) then
        (fix star (n : QString) : bool :=
           wildcardMatch pattern' n
           || match n with [] => false | _ :: n' => star n' end) name
      else
        match name with
        | [] => false
        | d :: name' =>
            (bool_decide (c = "?"%char) || bool_decide (c = d))
            && wildcardMatch pattern' name'
        end
  end.

Definition readyWallet : IWalletLegacy := {|
  w_getAddress := Returns (qstr "Ch1address");
  w_actualBalance := Returns 700;
  w_pendingBalance := Returns 30;
  w_initAndLoad := λ _, Returns tt;
  w_initAndGenerate := λ _, Returns tt;
  w_save := λ _ _, Returns (qstr "wallet-bytes")
|}.

Definition failingWallet : IWalletLegacy := {|
  w_getAddress := ThrowsSystemError 1;
  w_actualBalance := ThrowsSystemError 1;
  w_pendingBalance := ThrowsSystemError 1;
  w_initAndLoad := λ _, ThrowsSystemError 5;
  w_initAndGenerate := λ _, ThrowsSystemError 5;
  w_save := λ _ _, ThrowsSystemError 5
|}.

(** The value [WRONG_PASSWORD] takes in the examples. *)
Definition exampleWrongPassword : Z := 4.

Definition exampleNode : NodeAdapter := {|
  createWallet := readyWallet;
  importLegacyKeys := λ _ _, ImportSystemError exampleWrongPassword
|}.

Definition exampleEnv : Env := {|
  currentDateTime :=
    {| dt_year := 2017; dt_month := 3; dt_day := 9;
       dt_hour := 14; dt_minute := 5 |};
  copyTime := 1000;
  writeTime := 1000
|}.

Definition laterEnv : Env := {|
  currentDateTime := currentDateTime exampleEnv;
  copyTime := 1030;
  writeTime := 1030
|}.

Definition mkFs (l : list (string * node)) : FileSystem :=
  list_to_map ((λ kv, (qstr kv.1, kv.2)) <$> l).

Definition mkExample (wallet : option IWalletLegacy) (file : string)
  (files : list (string * node)) : World := {|
  m_wallet := wallet;
  m_mutex := false;
  m_file := None;
  m_isBackupInProgress := false;
  m_isSynchronized := false;
  m_lastWalletTransactionId := quint64_max;
  walletFile := qstr file;
  dataDir := qstr "/data";
  isEncrypted := false;
  fs := mkFs files;
  nodeAdapter := exampleNode;
  env := exampleEnv;
  history := []
|}.

Definition homeFiles : list (string * node) :=
  [ ("/data", Dir); ("/home", Dir);
    ("/home/wallet.wallet", File (qstr "keys-and-cache") 900) ].

(** A closed adapter in front of an existing wallet file, no backups yet. *)
Definition freshWorld : World := mkExample None "/home/wallet.wallet" homeFiles.

(** The same with twelve backups of earlier minutes in place. *)
Definition crowdedWorld : World :=
  mkExample None "/home/wallet.wallet"
    (homeFiles ++
     [ ("/data/backup", Dir);
       ("/data/backup/wallet.01-03-2017-10-00.wallet", File (qstr "b01") 101);
       ("/data/backup/wallet.02-03-2017-10-00.wallet", File (qstr "b02") 102);
       ("/data/backup/wallet.03-03-2017-10-00.wallet", File (qstr "b03") 103);
       ("/data/backup/wallet.04-03-2017-10-00.wallet", File (qstr "b04") 104);
       ("/data/backup/wallet.05-03-2017-10-00.wallet", File (qstr "b05") 105);
       ("/data/backup/wallet.06-03-2017-10-00.wallet", File (qstr "b06") 106);
       ("/data/backup/wallet.07-03-2017-10-00.wallet", File (qstr "b07") 107);
       ("/data/backup/wallet.08-03-2017-10-00.wallet", File (qstr "b08") 108);
       ("/data/backup/wallet.09-03-2017-10-00.wallet", File (qstr "b09") 109);
       ("/data/backup/wallet.09-03-2017-11-00.wallet", File (qstr "b10") 110);
       ("/data/backup/wallet.09-03-2017-12-00.wallet", File (qstr "b11") 111);
       ("/data/backup/wallet.09-03-2017-13-00.wallet", File (qstr "b12") 112) ]).

(** A legacy key file as the wallet file. *)
Definition legacyWorld : World :=
  mkExample None "/home/wallet.keys"
    [ ("/data", Dir); ("/home", Dir);
      ("/home/wallet.keys", File (qstr "legacy-keys") 900) ].

(** An open wallet. *)
Definition openWorld : World :=
  mkExample (Some readyWallet) "/home/wallet.wallet" homeFiles.

(** An open wallet whose engine throws on every call. *)
Definition brokenWorld : World :=
  mkExample (Some failingWallet) "/home/wallet.wallet" homeFiles.

(** A legacy key file with the wallet object already created, as
    [importLegacyWallet] finds it. *)
Definition legacyLoading : World := set_m_wallet (Some readyWallet) legacyWorld.

(** The open wallet after [save(true, true)] has written the temporary
    file. *)
Definition savedWorld : World :=
  match save true true openWorld with
  | Some (_, w) => w
  | None => openWorld
  end.

(** The open wallet after [backup("/home/copy")]. *)
Definition backedUpWorld : World :=
  match backup (qstr "/home/copy") openWorld with
  | Some w => w
  | None => openWorld
  end.

(** An open wallet with transaction 7 recorded during synchronisation. *)
Definition pendingWorld : World := externalTransactionCreated 7 openWorld.

Definition noError : error_code := {| ec_value := 0; ec_message := [] |}.

(** * The rest of the adapter

    The member functions below are the ones the first part left out.  They
    reuse its world; what they need besides (the notification timer, the
    signals not met so far, the engine calls not met so far) is added
    around it. *)

Definition set_m_isSynchronized (x : bool) (w : World) : World :=
  mkWorld (m_wallet w) (m_mutex w) (m_file w) (m_isBackupInProgress w)
    x (m_lastWalletTransactionId w) (walletFile w)
    (dataDir w) (isEncrypted w) (fs w) (nodeAdapter w) (env w) (history w).

(** The events a call appended to the history. *)
Definition eventsSince (before after : World) : list Event :=
  drop (length (history before)) (history after).

(** A stream can be opened on [path] for writing: a file is there, or
    nothing is and the directory exists. *)
Definition canWrite (fs : FileSystem) (path : QString) : bool :=
  match fs !! path with
  | Some (File _ _) => true
  | Some Dir => false
  | None => isDir fs (parentPath path)
  end.

(** ** Numbers in messages *)

Module QNum.

Definition digitN (n : N) : ascii := ascii_of_N (48 + n mod 10).

Fixpoint decimalFuel (fuel : nat) (n : N) (acc : QString) : QString :=
  match fuel with
  | O => acc
  | S fuel' =>
      let acc' := digitN n :: acc in
      if (n / 10 =? 0)%N then acc' else decimalFuel fuel' (n / 10) acc'
  end.

(** [QString::number] of an unsigned value, as [arg] prints it. *)
Definition number (n : N) : QString :=
  decimalFuel (S (N.to_nat (N.log2 n))) n [].

End QNum.

(** ** More of the engine *)

(** [CryptoNote::WalletLegacyTransaction], of which the adapter reads one
    field. *)
Record WalletLegacyTransaction : Type := {
  transferCount : Z
}.

(** [CryptoNote::WalletLegacyTransfer]. *)
Record WalletLegacyTransfer : Type := {
  transfer_address : QString;
  transfer_amount : Z
}.

(** The outcomes of the further calls the adapter makes on a wallet
    object.  [c_getTransaction] returns the transaction when the engine's
    [getTransaction] returns [true]; [c_changePassword] returns the value of
    the error code the engine returns. *)
Record WalletCalls : Type := {
  c_getTransactionCount : Outcome Z;
  c_getTransferCount : Outcome Z;
  c_getTransaction : Z → Outcome (option WalletLegacyTransaction);
  c_changePassword : QString → QString → Outcome Z;
  c_sendTransaction :
    list WalletLegacyTransfer → Z → QString → Z → Outcome unit
}.

(** The names of [CryptoNote::error::WalletErrorCodes] that
    [walletErrorMessage] knows. *)
Module WalletErrorCodes.

Inductive t : Type :=
| NOT_INITIALIZED | WRONG_PASSWORD | ALREADY_INITIALIZED
| INTERNAL_WALLET_ERROR | MIXIN_COUNT_TOO_BIG | BAD_ADDRESS
| TRANSACTION_SIZE_TOO_BIG | WRONG_AMOUNT | SUM_OVERFLOW | ZERO_DESTINATION
| TX_CANCEL_IMPOSSIBLE | WRONG_STATE | OPERATION_CANCELLED
| TX_TRANSFER_IMPOSSIBLE | WRONG_VERSION | FEE_TOO_SMALL
| KEY_GENERATION_ERROR | INDEX_OUT_OF_RANGE | ADDRESS_ALREADY_EXISTS
| TRACKING_MODE | WRONG_PARAMETERS | OBJECT_NOT_FOUND | WALLET_NOT_FOUND
| CHANGE_ADDRESS_REQUIRED | CHANGE_ADDRESS_NOT_FOUND
| DESTINATION_ADDRESS_REQUIRED | DESTINATION_ADDRESS_NOT_FOUND
| BAD_PAYMENT_ID | BAD_TRANSACTION_EXTRA.

#[global] Instance eq_dec : EqDecision t.
Proof. solve_decision. Defined.

(** The [case] labels of [walletErrorMessage], in the order they are
    written. *)
Definition cases : list t :=
  [ NOT_INITIALIZED; WRONG_PASSWORD; ALREADY_INITIALIZED;
    INTERNAL_WALLET_ERROR; MIXIN_COUNT_TOO_BIG; BAD_ADDRESS;
    TRANSACTION_SIZE_TOO_BIG; WRONG_AMOUNT; SUM_OVERFLOW; ZERO_DESTINATION;
    TX_CANCEL_IMPOSSIBLE; WRONG_STATE; OPERATION_CANCELLED;
    TX_TRANSFER_IMPOSSIBLE; WRONG_VERSION; FEE_TOO_SMALL;
    KEY_GENERATION_ERROR; INDEX_OUT_OF_RANGE; ADDRESS_ALREADY_EXISTS;
    TRACKING_MODE; WRONG_PARAMETERS; OBJECT_NOT_FOUND; WALLET_NOT_FOUND;
    CHANGE_ADDRESS_REQUIRED; CHANGE_ADDRESS_NOT_FOUND;
    DESTINATION_ADDRESS_REQUIRED; DESTINATION_ADDRESS_NOT_FOUND;
    BAD_PAYMENT_ID; BAD_TRANSACTION_EXTRA ].

(** The text each [case] returns. *)
Definition text (c : t) : QString :=
  qstr match c with
  | NOT_INITIALIZED => "Object was not initialized"
  | WRONG_PASSWORD => "The password is wrong"
  | ALREADY_INITIALIZED => "The object is already initialized"
  | INTERNAL_WALLET_ERROR => "Internal error occurred"
  | MIXIN_COUNT_TOO_BIG => "MixIn count is too big"
  | BAD_ADDRESS => "Bad address"
  | TRANSACTION_SIZE_TOO_BIG => "Transaction size is too big"
  | WRONG_AMOUNT => "Wrong amount"
  | SUM_OVERFLOW => "Sum overflow"
  | ZERO_DESTINATION => "The destination is empty"
  | TX_CANCEL_IMPOSSIBLE => "Impossible to cancel transaction"
  | WRONG_STATE =>
      "The wallet is in wrong state (maybe loading or saving), try again later"
  | OPERATION_CANCELLED => "The operation you've requested has been cancelled"
  | TX_TRANSFER_IMPOSSIBLE => "Transaction transfer impossible"
  | WRONG_VERSION => "Wrong version"
  | FEE_TOO_SMALL => "Transaction fee is too small"
  | KEY_GENERATION_ERROR => "Cannot generate new key"
  | INDEX_OUT_OF_RANGE => "Index is out of range"
  | ADDRESS_ALREADY_EXISTS => "Address already exists"
  | TRACKING_MODE => "The wallet is in tracking mode"
  | WRONG_PARAMETERS => "Wrong parameters passed"
  | OBJECT_NOT_FOUND => "Object not found"
  | WALLET_NOT_FOUND => "Requested wallet not found"
  | CHANGE_ADDRESS_REQUIRED => "Change address required"
  | CHANGE_ADDRESS_NOT_FOUND => "Change address not found"
  | DESTINATION_ADDRESS_REQUIRED => "Destination address required"
  | DESTINATION_ADDRESS_NOT_FOUND => "Destination address not found"
  | BAD_PAYMENT_ID => "Wrong payment id format"
  | BAD_TRANSACTION_EXTRA => "Wrong transaction extra format"
  end.

End WalletErrorCodes.

(** ** Block status *)

Definition MSECS_IN_HOUR : Z := 60 * 60 * 1000.
Definition MSECS_IN_MINUTE : Z := 60 * 1000.
Definition LAST_BLOCK_INFO_UPDATING_INTERVAL : Z := 1 * MSECS_IN_MINUTE.
Definition LAST_BLOCK_INFO_WARNING_INTERVAL : Z := 1 * MSECS_IN_HOUR.

(** What [updateBlockStatusText] reads from the node and the clock: the
    height of the last local block, its time stamp in UTC with its seconds,
    and [blockTime.msecsTo(currentTime)], a [qint64]. *)
Record BlockStatus : Type := {
  lastLocalBlockHeight : N;
  blockTime : QDateTime;
  blockTimeSecond : nat;
  msecsToNow : Z
}.

(** The conversion of a [qint64] to [quint64]. *)
Definition to_quint64 (x : Z) : Z := x mod 2 ^ 64.

(** [quint64 blockAge = blockTime.msecsTo(currentTime)]. *)
Definition blockAge (b : BlockStatus) : Z := to_quint64 (msecsToNow b).

Definition blockAgeHours (b : BlockStatus) : Z := blockAge b / MSECS_IN_HOUR.

Definition blockAgeMinutes (b : BlockStatus) : Z :=
  blockAge b mod MSECS_IN_HOUR / MSECS_IN_MINUTE.

(** The condition under which the warning is left empty: a signed
    comparison, the interval being converted to [qint64]. *)
Definition blockIsRecent (b : BlockStatus) : bool :=
  msecsToNow b <? LAST_BLOCK_INFO_WARNING_INTERVAL.

Definition warningString (b : BlockStatus) : QString :=
  if blockIsRecent b then []
  else
    qstr "  Warning: last block was received "
    ++ QNum.number (Z.to_N (blockAgeHours b)) ++ qstr " hours "
    ++ QNum.number (Z.to_N (blockAgeMinutes b)) ++ qstr " minutes ago".

(** [QLocale(QLocale::English).toString(blockTime, "dd.MM.yyyy, HH:mm:ss")]. *)
Definition blockTimeStr (b : BlockStatus) : QString :=
  QStr.fmt2 (dt_day (blockTime b)) ++ qstr "."
  ++ QStr.fmt2 (dt_month (blockTime b)) ++ qstr "."
  ++ QStr.fmt4 (dt_year (blockTime b)) ++ qstr ", "
  ++ QStr.fmt2 (dt_hour (blockTime b)) ++ qstr ":"
  ++ QStr.fmt2 (dt_minute (blockTime b)) ++ qstr ":"
  ++ QStr.fmt2 (blockTimeSecond b).

Definition blockStatusText (b : BlockStatus) : QString :=
  qstr "Wallet synchronized. Height: "
  ++ QNum.number (lastLocalBlockHeight b)
  ++ qstr "  |  Time (UTC): " ++ blockTimeStr b ++ warningString b.

Definition updateBlockStatusText (b : BlockStatus) (w : World) : World :=
  match m_wallet w with
  | None => w
  | Some _ =>
      let w := emit (walletStateChangedSignal (blockStatusText b)) w in
      record (SingleShot LAST_BLOCK_INFO_UPDATING_INTERVAL) w
  end.

Definition updateBlockStatusTextWithDelay (w : World) : World :=
  record (SingleShot 5000) w.

(** ** The wider adapter *)

(** The signals the first part did not meet. *)
Inductive MoreSignal : Type :=
| walletCloseCompletedSignal
| walletSendTransactionCompletedSignal (id error : Z) (text : QString)
| walletSynchronizationProgressUpdatedSignal (current total : N)
| walletSynchronizationCompletedSignal (error : Z) (text : QString)
| updateBlockStatusTextSignal
| walletTransactionUpdatedSignal (id : Z).

(** The world with the notification timer
    ([m_newTransactionsNotificationTimer], active or not) and the signals
    of [MoreSignal] emitted so far, oldest first.  These are kept beside
    the world's history: their order against its events is not recorded. *)
Record Session : Type := mkSession {
  world : World;
  timerActive : bool;
  emitted : list MoreSignal
}.

Definition onWorld (f : World → World) (s : Session) : Session :=
  mkSession (f (world s)) (timerActive s) (emitted s).

Definition emitMore (sig : MoreSignal) (s : Session) : Session :=
  mkSession (world s) (timerActive s) (emitted s ++ [sig]).

Definition setTimer (active : bool) (s : Session) : Session :=
  mkSession (world s) active (emitted s).

Section MoreAdapter.

Variable WRONG_PASSWORD : Z.

(** The further calls of a wallet object. *)
Variable calls : IWalletLegacy → WalletCalls.

(** The values of [CryptoNote::error::WalletErrorCodes], declared in the
    engine's [Wallet/WalletErrors.h]. *)
Variable errorValue : WalletErrorCodes.t → Z.

(** *** Counting queries *)

(** [None]: [m_wallet] is null, which [Q_CHECK_PTR] rules out. *)
Definition getTransactionCount (w : World) : option Z :=
  match m_wallet w with
  | None => None
  | Some wal =>
      match c_getTransactionCount (calls wal) with
      | Returns n => Some n
      | ThrowsSystemError _ => Some 0
      end
  end.

Definition getTransferCount (w : World) : option Z :=
  match m_wallet w with
  | None => None
  | Some wal =>
      match c_getTransferCount (calls wal) with
      | Returns n => Some n
      | ThrowsSystemError _ => Some 0
      end
  end.

(** The result is the transaction when the member function returns
    [true]. *)
Definition getTransaction (_id : Z) (w : World)
  : option (option WalletLegacyTransaction) :=
  match m_wallet w with
  | None => None
  | Some wal =>
      match c_getTransaction (calls wal) _id with
      | Returns r => Some r
      | ThrowsSystemError _ => Some None
      end
  end.

(** *** Closing *)

(** [lock()] waits while the mutex is held.  In [close] and [reset] it is
    held when the save they have just started is still running, and it is
    the engine's [saveCompleted] that releases it; [_saveError] is the error
    which that call reports.  What [saveCompleted] does after it has
    released the lock may overlap with the lines after [lock()]: the two
    touch different members, and here the former comes first. *)
Definition awaitSave (_saveError : error_code) (w : World) : World :=
  if m_mutex w then saveCompleted _saveError w else w.

(** Lines 168-177 of [close] and 247-256 of [reset], which are the same.
    [removeObserver] is left out.  The slots of queued signals run from the
    event loop, in [QCoreApplication::processEvents] or after the return:
    they are applied apart, and no event is taken to wait in the queue when
    [close] or [reset] is called. *)
Definition tearDown (s : Session) (w : World) : Session :=
  let w := lock w in
  let w := set_m_isSynchronized false w in
  let s := setTimer false (mkSession w (timerActive s) (emitted s)) in
  let s := onWorld (set_m_lastWalletTransactionId quint64_max) s in
  let s := emitMore walletCloseCompletedSignal s in
  let s := onWorld deleteWallet s in
  onWorld unlock s.

Definition close (_saveError : error_code) (s : Session) : option Session :=
  match save true true (world s) with
  | None => None
  | Some (_, w) => Some (tearDown s (awaitSave _saveError w))
  end.

Definition reset (_saveError : error_code) (s : Session) : option Session :=
  match save false false (world s) with
  | None => None
  | Some (_, w) => Some (tearDown s (awaitSave _saveError w))
  end.

(** *** Sending *)

Definition sendTransaction (_transfers : list WalletLegacyTransfer)
  (_fee : Z) (_paymentId : QString) (_mixin : Z) (w : World) : option World :=
  match m_wallet w with
  | None => None
  | Some wal =>
      let w := lock w in
      match c_sendTransaction (calls wal) _transfers _fee _paymentId _mixin
      with
      | Returns _ =>
          Some (emit (walletStateChangedSignal (qstr "Sending transaction")) w)
      | ThrowsSystemError _ => Some (unlock w)
      end
  end.

(** The [switch]: the first [case] whose label has the value. *)
Definition walletErrorMessage (_error_code : Z) : QString :=
  match List.find (λ c, bool_decide (errorValue c = _error_code))
          WalletErrorCodes.cases with
  | Some c => WalletErrorCodes.text c
  | None => qstr "Unknown error"
  end.

(** The engine's callback when a send has finished. *)
Definition sendTransactionCompleted (_transaction_id : Z)
  (_error : error_code) (s : Session) : Session :=
  let s := onWorld unlock s in
  let s :=
    emitMore (walletSendTransactionCompletedSignal _transaction_id
                (ec_value _error) (walletErrorMessage (ec_value _error))) s in
  onWorld (emit updateBlockStatusTextWithDelaySignal) s.

(** The slot the queued [walletSendTransactionCompletedSignal] runs. *)
Definition onWalletSendTransactionCompleted (_transactionId _error : Z)
  (_errorText : QString) (w : World) : option World :=
  if negb (_error =? 0) then Some w
  else
    match getTransaction _transactionId w with
    | None => None
    | Some None => Some w
    | Some (Some transaction) =>
        if transferCount transaction =? 0 then Some w
        else
          let w := emit (walletTransactionCreatedSignal _transactionId) w in
          snd <$> save true true w
    end.

(** *** Changing the password *)

Definition changePassword (_oldPassword _newPassword : QString) (w : World)
  : option (bool * World) :=
  match m_wallet w with
  | None => None
  | Some wal =>
      match c_changePassword (calls wal) _oldPassword _newPassword with
      | Returns code =>
          if code =? WRONG_PASSWORD then Some (false, w)
          else
            save true true
              (setEncrypted (negb (QStr.isEmpty _newPassword)) w)
      | ThrowsSystemError _ => Some (false, w)
      end
  end.

(** *** Synchronisation *)

Definition synchronizationProgressUpdated (_current _total : N)
  (s : Session) : Session :=
  let s := onWorld (set_m_isSynchronized false) s in
  let s :=
    onWorld (emit (walletStateChangedSignal
                     (qstr "Synchronizing " ++ QNum.number _current
                      ++ qstr "/" ++ QNum.number _total))) s in
  emitMore (walletSynchronizationProgressUpdatedSignal _current _total) s.

Definition synchronizationCompleted (_error : error_code) (s : Session)
  : Session :=
  if ec_value _error =? 0 then
    let s := onWorld (set_m_isSynchronized true) s in
    let s := emitMore updateBlockStatusTextSignal s in
    emitMore (walletSynchronizationCompletedSignal (ec_value _error)
                (ec_message _error)) s
  else s.

Definition transactionUpdated (_transactionId : Z) (s : Session) : Session :=
  emitMore (walletTransactionUpdatedSignal _transactionId) s.

(** The constructor's connections (lines 42-52): the slot of
    [walletSynchronizationProgressUpdatedSignal], the slot of
    [walletSynchronizationCompletedSignal], and the timer's time-out, which
    only an active timer delivers. *)
Definition onSynchronizationProgressUpdated (s : Session) : Session :=
  if negb (timerActive s) then setTimer true s else s.

Definition onSynchronizationCompleted (s : Session) : Session :=
  onWorld notifyAboutLastTransaction (setTimer false s).

Definition onNotificationTimeout (s : Session) : Session :=
  if timerActive s then onWorld notifyAboutLastTransaction s else s.

End MoreAdapter.


(** ** More example data *)

(** A closed adapter in front of a path where no wallet file is yet. *)
Definition newWorld : World :=
  mkExample None "/home/new.wallet" [ ("/data", Dir); ("/home", Dir) ].

(** A node whose legacy importer accepts the password [secret]. *)
Definition importingNode : NodeAdapter := {|
  createWallet := readyWallet;
  importLegacyKeys := λ _ password,
    if bool_decide (password = qstr "secret")
    then ImportDone (qstr "imported-wallet")
    else ImportSystemError exampleWrongPassword
|}.

(** A legacy key file next to a wallet file of the same name, the wallet
    object created. *)
Definition legacyPair : World :=
  mkWorld (Some readyWallet) false None false false quint64_max
    (qstr "/home/old.keys") (qstr "/data") false
    (mkFs [ ("/data", Dir); ("/home", Dir);
            ("/home/old.keys", File (qstr "legacy-keys") 800);
            ("/home/old.wallet", File (qstr "earlier-wallet") 850) ])
    importingNode exampleEnv [].

(** The further engine calls in the examples: three transactions, of
    which number 7 has two transfers and number 8 none; the old password is
    [secret]; a fee below 10 is refused. *)
Definition exampleCalls (wal : IWalletLegacy) : WalletCalls := {|
  c_getTransactionCount := Returns 3;
  c_getTransferCount := ThrowsSystemError 1;
  c_getTransaction := λ id,
    if id =? 7 then Returns (Some {| transferCount := 2 |})
    else if id =? 8 then Returns (Some {| transferCount := 0 |})
    else Returns None;
  c_changePassword := λ old _,
    if bool_decide (old = qstr "secret") then Returns 0
    else Returns exampleWrongPassword;
  c_sendTransaction := λ _ fee _ _,
    if fee <? 10 then ThrowsSystemError 16 else Returns tt
|}.

(** Values for the error codes in the examples: the place of the name
    among the [case] labels. *)
Definition exampleErrorValue (c : WalletErrorCodes.t) : Z :=
  match list_find (λ c', c' = c) WalletErrorCodes.cases with
  | Some (i, _) => Z.of_nat (S i)
  | None => 0
  end.


(** A block received two hours, five minutes and three seconds ago. *)
Definition staleBlock : BlockStatus := {|
  lastLocalBlockHeight := 120345;
  blockTime := {| dt_year := 2017; dt_month := 3; dt_day := 9;
                  dt_hour := 12; dt_minute := 0 |};
  blockTimeSecond := 2;
  msecsToNow := 7503000
|}.

(** A wallet file opened from inside the backup directory, where twelve
    newer backups lie beside it. *)
Definition restoringWorld : World :=
  mkWorld None false None false false quint64_max
    (qstr "/data/backup/wallet.01-03-2017-10-00.wallet") (qstr "/data") false
    (fs crowdedWorld) exampleNode exampleEnv [].

(** An engine that refuses the password when it loads the file: its
    [initAndLoad] throws a [std::system_error] with the wrong-password
    code.  A closed adapter in front of an existing wallet file, with that
    engine. *)
Definition lockedWallet : IWalletLegacy := {|
  w_getAddress := Returns (qstr "Ch1address");
  w_actualBalance := Returns 700;
  w_pendingBalance := Returns 30;
  w_initAndLoad := λ _, ThrowsSystemError exampleWrongPassword;
  w_initAndGenerate := λ _, Returns tt;
  w_save := λ _ _, Returns (qstr "wallet-bytes")
|}.

Definition lockedWorld : World :=
  mkWorld None false None false false quint64_max
    (qstr "/home/wallet.wallet") (qstr "/data") false (mkFs homeFiles)
    {| createWallet := lockedWallet;
       importLegacyKeys := λ _ _, ImportSystemError exampleWrongPassword |}
    exampleEnv [].

(** * Properties *)

(** Settles a decidable goal by evaluating its decision procedure. *)
Ltac by_evaluation :=
  lazymatch goal with
  | |- ?P => apply (@bool_decide_unpack P _); vm_compute; exact I
  end.

(** ** QString and path lemmas *)

Lemma section0_app sep (a b : QString) :
  sep ∉ a → QStr.section0 sep (a ++ sep :: b) = a.
Proof.
  induction a as [|c a IH]; intros Hnot; simpl.
  - by rewrite bool_decide_eq_true_2.
  - apply not_elem_of_cons in Hnot as [Hc Ha].
    rewrite bool_decide_eq_false_2 by congruence.
    by rewrite IH.
Qed.

Lemma section0_not_elem sep (s : QString) : sep ∉ QStr.section0 sep s.
Proof.
  induction s as [|c s IH]; simpl.
  - apply not_elem_of_nil.
  - case_bool_decide; [apply not_elem_of_nil|].
    apply not_elem_of_cons. split; [congruence|done].
Qed.

Lemma fileName_filePath (d n : QString) :
  slash ∉ n → fileName (filePath d n) = n.
Proof.
  intros Hn. unfold fileName, filePath.
  rewrite reverse_app, reverse_cons, <- app_assoc. simpl.
  rewrite section0_app; [apply reverse_involutive|].
  by rewrite elem_of_reverse.
Qed.

Lemma fileName_no_slash (p : QString) : slash ∉ fileName p.
Proof. unfold fileName. rewrite elem_of_reverse. apply section0_not_elem. Qed.

Lemma parentPath_filePath (d n : QString) :
  slash ∉ n → parentPath (filePath d n) = d.
Proof.
  intros Hn. unfold parentPath. rewrite fileName_filePath by done.
  unfold filePath. rewrite length_app. simpl.
  replace (length d + S (length n) - S (length n))%nat with (length d) by lia.
  by rewrite take_app_length.
Qed.

Lemma startsWith_short (s pat : QString) :
  (length s < length pat)%nat → QStr.startsWith s pat = false.
Proof.
  intros Hlen. unfold QStr.startsWith. apply bool_decide_eq_false_2.
  intros Hp. apply prefix_length in Hp. lia.
Qed.

Lemma lastIndexDown_app (s pat : QString) (k : nat) :
  pat ≠ [] → (k ≤ length pat)%nat →
  QStr.lastIndexDown (s ++ pat) pat (length s + k) = Z.of_nat (length s).
Proof.
  intros Hpat. induction k as [|k IH]; intros Hk.
  - rewrite Nat.add_0_r. destruct s as [|c s]; simpl.
    + unfold QStr.startsWith. by rewrite bool_decide_eq_true_2.
    + rewrite drop_app_length. unfold QStr.startsWith.
      by rewrite bool_decide_eq_true_2.
  - rewrite Nat.add_succ_r. simpl.
    rewrite (startsWith_short (drop _ _)).
    + apply IH. lia.
    + rewrite length_drop, length_app.
      destruct pat; [done|simpl in *; lia].
Qed.

Lemma lastIndexOf_app (s pat : QString) :
  pat ≠ [] → QStr.lastIndexOf (s ++ pat) pat = Z.of_nat (length s).
Proof.
  intros Hpat. unfold QStr.lastIndexOf. rewrite length_app.
  by apply lastIndexDown_app.
Qed.

Lemma replace_suffix (s pat after : QString) :
  QStr.replace (s ++ pat) (Z.of_nat (length s)) (Z.of_nat (length pat)) after
  = s ++ after.
Proof.
  unfold QStr.replace. rewrite length_app.
  replace (Z.of_nat (length s) <? 0) with false by (symmetry; apply Z.ltb_ge; lia).
  replace (Z.of_nat (length s + length pat) <? Z.of_nat (length s)) with false
    by (symmetry; apply Z.ltb_ge; lia).
  simpl. rewrite Nat2Z.id.
  replace (Z.to_nat _) with (length pat) by lia.
  rewrite take_app_length.
  rewrite drop_ge by (rewrite length_app; lia).
  by rewrite app_nil_r.
Qed.

(** ** The listing order *)

Lemma lexLe_total (a b : QString) : QStr.lexLe a b = true ∨ QStr.lexLe b a = true.
Proof.
  revert b. induction a as [|x a IH]; intros [|y b]; simpl; auto.
  destruct (Nat.ltb_spec (nat_of_ascii x) (nat_of_ascii y)); [by left|].
  destruct (Nat.ltb_spec (nat_of_ascii y) (nat_of_ascii x)); [by right|].
  apply IH.
Qed.

Lemma lexLe_trans (a b c : QString) :
  QStr.lexLe a b = true → QStr.lexLe b c = true → QStr.lexLe a c = true.
Proof.
  revert b c. induction a as [|x a IH]; intros [|y b] [|z c]; simpl; try done.
  destruct (Nat.ltb_spec (nat_of_ascii x) (nat_of_ascii y));
    destruct (Nat.ltb_spec (nat_of_ascii y) (nat_of_ascii x));
    destruct (Nat.ltb_spec (nat_of_ascii y) (nat_of_ascii z));
    destruct (Nat.ltb_spec (nat_of_ascii z) (nat_of_ascii y));
    destruct (Nat.ltb_spec (nat_of_ascii x) (nat_of_ascii z));
    destruct (Nat.ltb_spec (nat_of_ascii z) (nat_of_ascii x));
    try done; try lia.
  apply IH.
Qed.

#[global] Instance timeOrder_total : Total timeOrder.
Proof.
  intros a b. unfold timeOrder.
  destruct (Z.lt_trichotomy (lastModified a) (lastModified b)) as [?|[Heq|?]];
    [right; by left| |left; by left].
  destruct (lexLe_total (info_fileName a) (info_fileName b));
    [left|right]; right; split; congruence.
Qed.

#[global] Instance timeOrder_trans : Transitive timeOrder.
Proof.
  intros a b c [Hab|[Hab Lab]] [Hbc|[Hbc Lbc]]; unfold timeOrder.
  - left; lia.
  - left; lia.
  - left; lia.
  - right. split; [lia|]. eapply lexLe_trans; eauto.
Qed.

Lemma timeOrder_newer (a b : QFileInfo) :
  timeOrder a b → lastModified b ≤ lastModified a.
Proof. intros [?|[? _]]; lia. Qed.

(** ** Directory listings *)

Section ListingFacts.

Variable nameMatch : QString → QString → bool.

Lemma entryOf_Some dir pattern kv x :
  entryOf nameMatch dir pattern kv = Some x ↔
  (∃ c, kv.2 = File c (lastModified x)) ∧
  absoluteFilePath x = kv.1 ∧
  info_fileName x = fileName kv.1 ∧
  filePath dir (fileName kv.1) = kv.1 ∧
  nameMatch pattern (fileName kv.1) = true.
Proof.
  unfold entryOf. destruct kv as [p [c t|]]; simpl.
  - destruct (bool_decide_reflect (filePath dir (fileName p) = p)) as [Hp|Hp];
      simpl.
    + destruct (nameMatch pattern (fileName p)) eqn:Hm.
      * split.
        -- intros [= <-]. simpl. eauto 6.
        -- intros ([c' [= -> ->]] & Ha & Hn & _ & _).
           destruct x; simpl in *; by subst.
      * split; [done|]. by intros (_ & _ & _ & _ & ?).
    + split; [done|]. by intros (_ & _ & _ & ? & _).
  - split; [done|]. by intros ([? ?] & _).
Qed.

(** What it is to be listed. *)
Definition listed (fs : FileSystem) (dir pattern : QString) (x : QFileInfo)
  : Prop :=
  isDir fs dir = true ∧
  (∃ c, fs !! absoluteFilePath x = Some (File c (lastModified x))) ∧
  info_fileName x = fileName (absoluteFilePath x) ∧
  filePath dir (info_fileName x) = absoluteFilePath x ∧
  nameMatch pattern (info_fileName x) = true.

Lemma elem_of_entryInfoList fs dir pattern x :
  x ∈ entryInfoList nameMatch fs dir pattern ↔ listed fs dir pattern x.
Proof.
  unfold entryInfoList, listed. destruct (isDir fs dir).
  - rewrite merge_sort_Permutation, list_elem_of_omap. split.
    + intros ([p n] & Hin & Hx). apply elem_of_map_to_list in Hin.
      apply entryOf_Some in Hx as ([c Hc] & Ha & Hn & Hp & Hm).
      simpl in *. subst n. rewrite Ha, Hn. eauto 8.
    + intros (_ & [c Hc] & Hn & Hp & Hm).
      exists (absoluteFilePath x, File c (lastModified x)). split.
      * by apply elem_of_map_to_list.
      * apply entryOf_Some. simpl. rewrite <- Hn. eauto 8.
  - split; [by intros ?%elem_of_nil|]. by intros [? _].
Qed.

Lemma NoDup_entryInfoList fs dir pattern :
  NoDup (absoluteFilePath <$> entryInfoList nameMatch fs dir pattern).
Proof.
  unfold entryInfoList. destruct (isDir fs dir); [|constructor].
  rewrite merge_sort_Permutation.
  pose proof (NoDup_fst_map_to_list fs) as Hnd.
  induction (map_to_list fs) as [|kv l IH]; csimpl; [constructor|].
  apply NoDup_cons in Hnd as [Hkv Hnd].
  destruct (entryOf nameMatch dir pattern kv) as [x|] eqn:Hx; [|by apply IH].
  csimpl. apply NoDup_cons. split; [|by apply IH].
  apply entryOf_Some in Hx as (_ & Ha & _). rewrite Ha.
  intros Hin. apply Hkv. apply list_elem_of_fmap in Hin as (y & -> & Hy).
  apply list_elem_of_omap in Hy as (kv' & Hin' & Hy).
  apply entryOf_Some in Hy as (_ & Hy & _).
  apply list_elem_of_fmap. by exists kv'.
Qed.

Lemma entryInfoList_sorted fs dir pattern :
  StronglySorted timeOrder (entryInfoList nameMatch fs dir pattern).
Proof.
  unfold entryInfoList. destruct (isDir fs dir); [|constructor].
  apply StronglySorted_merge_sort; apply _.
Qed.

End ListingFacts.

(** ** File operations *)

Lemma isFile_true (fs : FileSystem) p :
  isFile fs p = true ↔ ∃ c t, fs !! p = Some (File c t).
Proof.
  unfold isFile. destruct (fs !! p) as [[c t|]|]; split; try done; eauto.
  - by intros (? & ? & ?).
  - by intros (? & ? & ?).
Qed.

Lemma isDir_cons (fs : FileSystem) c p :
  isDir fs (c :: p) = true ↔ fs !! (c :: p) = Some Dir.
Proof.
  unfold isDir. destruct (fs !! (c :: p)) as [[]|]; split; done.
Qed.

Lemma QFile_remove_lookup (fs : FileSystem) q p :
  QFile_remove fs q !! p =
  if decide (p = q ∧ isFile fs p = true) then None else fs !! p.
Proof.
  unfold QFile_remove, isFile.
  destruct (decide (p = q)) as [->|Hne].
  - destruct (fs !! q) as [[c t|]|] eqn:Hq.
    + rewrite lookup_delete_eq. by rewrite decide_True.
    + rewrite Hq. rewrite decide_False; [done|]. by intros [_ ?].
    + rewrite Hq. rewrite decide_False; [done|]. by intros [_ ?].
  - rewrite decide_False by (by intros [? _]).
    destruct (fs !! q) as [[c t|]|]; [|done..]. by rewrite lookup_delete_ne.
Qed.

Lemma foldl_remove_other (ps : list QString) (fs : FileSystem) p :
  p ∉ ps → foldl QFile_remove fs ps !! p = fs !! p.
Proof.
  revert fs. induction ps as [|q ps IH]; intros fs Hp; simpl; [done|].
  apply not_elem_of_cons in Hp as [Hq Hps].
  rewrite IH, QFile_remove_lookup by done.
  rewrite decide_False; [done|]. by intros [? _].
Qed.

Lemma foldl_remove_cases (ps : list QString) (fs : FileSystem) p :
  foldl QFile_remove fs ps !! p = fs !! p ∨
  (foldl QFile_remove fs ps !! p = None ∧ isFile fs p = true).
Proof.
  revert fs. induction ps as [|q ps IH]; intros fs; simpl; [by left|].
  destruct (IH (QFile_remove fs q)) as [->|[-> Hf]];
    rewrite ?QFile_remove_lookup.
  - case_decide as Hd; [right|left]; by destruct_and?.
  - right. split; [done|].
    apply isFile_true in Hf as (c & t & Hf).
    rewrite QFile_remove_lookup in Hf. case_decide; [done|].
    apply isFile_true. eauto.
Qed.

Lemma foldl_remove_gone (ps : list QString) (fs : FileSystem) p :
  p ∈ ps → isFile fs p = true → foldl QFile_remove fs ps !! p = None.
Proof.
  revert fs. induction ps as [|q ps IH]; intros fs Hp Hf; simpl.
  - by apply elem_of_nil in Hp.
  - destruct (decide (p = q)) as [->|Hne].
    + destruct (foldl_remove_cases ps (QFile_remove fs q) q) as [->|[-> _]];
        [|done].
      rewrite QFile_remove_lookup. by rewrite decide_True.
    + apply elem_of_cons in Hp as [?|Hp]; [done|].
      apply IH; [done|]. apply isFile_true in Hf as (c & t & Hf).
      apply isFile_true. exists c, t. rewrite QFile_remove_lookup.
      rewrite decide_False; [done|]. by intros [? _].
Qed.

Lemma foldl_remove_isDir (ps : list QString) (fs : FileSystem) d :
  isDir (foldl QFile_remove fs ps) d = isDir fs d.
Proof.
  destruct d as [|c d]; [done|]. unfold isDir.
  destruct (foldl_remove_cases ps fs (c :: d)) as [->|[-> Hf]]; [done|].
  apply isFile_true in Hf as (c' & t & ->). done.
Qed.

Lemma retentionLoop_drop (l : list QFileInfo) (c : nat) (fs : FileSystem) :
  retentionLoop l c fs
  = foldl QFile_remove fs (absoluteFilePath <$> drop (10 - c) l).
Proof.
  revert c fs. induction l as [|x l IH]; intros c fs; simpl.
  - by rewrite drop_nil.
  - rewrite IH. destruct (Nat.ltb_spec 10 (S c)) as [Hlt|Hge].
    + replace (10 - c)%nat with 0%nat by lia.
      replace (10 - S c)%nat with 0%nat by lia. done.
    + replace (10 - c)%nat with (S (10 - S c)) by lia. done.
Qed.


Lemma QDir_mkdir_lookup (fs : FileSystem) d p :
  QDir_mkdir fs d !! p =
  if decide (p = d ∧ fs !! d = None ∧ isDir fs (parentPath d) = true)
  then Some Dir else fs !! p.
Proof.
  unfold QDir_mkdir. destruct (fs !! d) eqn:Hd.
  - rewrite decide_False; [done|]. by intros (_ & ? & _).
  - destruct (isDir fs (parentPath d)) eqn:Hpar.
    + destruct (decide (p = d)) as [->|Hne].
      * rewrite lookup_insert_eq. by rewrite decide_True.
      * rewrite lookup_insert_ne by done.
        rewrite decide_False; [done|]. by intros (? & _).
    + rewrite decide_False; [done|]. by intros (_ & _ & ?).
Qed.

Lemma QFile_copy_lookup (fs : FileSystem) s d t p :
  QFile_copy fs s d t !! p =
  match fs !! s with
  | Some (File c _) =>
      if decide (p = d ∧ fs !! d = None ∧ isDir fs (parentPath d) = true)
      then Some (File c t) else fs !! p
  | _ => fs !! p
  end.
Proof.
  unfold QFile_copy. destruct (fs !! s) as [[c t0|]|]; [|done..].
  destruct (fs !! d) eqn:Hd.
  - rewrite decide_False; [done|]. by intros (_ & ? & _).
  - destruct (isDir fs (parentPath d)) eqn:Hpar.
    + destruct (decide (p = d)) as [->|Hne].
      * rewrite lookup_insert_eq. by rewrite decide_True.
      * rewrite lookup_insert_ne by done.
        rewrite decide_False; [done|]. by intros (? & _).
    + rewrite decide_False; [done|]. by intros (_ & _ & ?).
Qed.

Lemma QFile_rename_lookup (fs : FileSystem) old new p :
  QFile_rename fs old new !! p =
  match fs !! old with
  | Some (File c t) =>
      if decide (fs !! new = None ∧ isDir fs (parentPath new) = true) then
        if decide (p = new) then Some (File c t)
        else if decide (p = old) then None else fs !! p
      else fs !! p
  | _ => fs !! p
  end.
Proof.
  unfold QFile_rename. destruct (fs !! old) as [[c t|]|] eqn:Ho; [|done..].
  destruct (fs !! new) eqn:Hn.
  - rewrite decide_False; [done|]. by intros (? & _).
  - destruct (isDir fs (parentPath new)) eqn:Hpar.
    + rewrite decide_True by done.
      destruct (decide (p = new)) as [->|Hne]; [by rewrite lookup_insert_eq|].
      rewrite lookup_insert_ne by done.
      destruct (decide (p = old)) as [->|Hne'];
        [by rewrite lookup_delete_eq|by rewrite lookup_delete_ne].
    + rewrite decide_False; [done|]. by intros (_ & ?).
Qed.

(** ** The backup copy *)

Lemma backup_no_slash : slash ∉ qstr "backup".
Proof. by_evaluation. Qed.

Lemma wallet_suffix_no_slash (stem : QString) :
  slash ∉ stem → slash ∉ stem ++ qstr ".wallet".
Proof.
  intros Hstem. rewrite elem_of_app. intros [?|Hin]; [done|].
  revert Hin. by_evaluation.
Qed.

Lemma digit_not_slash n : QStr.digit n ≠ slash.
Proof.
  unfold QStr.digit. pose proof (Nat.mod_upper_bound n 10).
  destruct (n mod 10)%nat as [|[|[|[|[|[|[|[|[|[|k]]]]]]]]]]; try discriminate.
  lia.
Qed.

Lemma dateTimeStr_no_slash t : slash ∉ dateTimeStr t.
Proof.
  unfold dateTimeStr, QStr.fmt2, QStr.fmt4, qstr. simpl.
  rewrite !elem_of_cons, elem_of_nil.
  intros H. repeat destruct H as [H|H]; try discriminate;
    try (symmetry in H; by apply digit_not_slash in H). done.
Qed.

Lemma dateTimeStr_length t : length (dateTimeStr t) = 17%nat.
Proof. reflexivity. Qed.

(** The destination for a wallet file named [stem.wallet]. *)
Lemma backupDestination_wallet w dir stem :
  slash ∉ stem →
  walletFile w = filePath dir (stem ++ qstr ".wallet") →
  backupDestination w
  = filePath (backupDir w)
      (stem ++ dateTimeStr (currentDateTime (env w)) ++ qstr ".wallet").
Proof.
  intros Hstem Hwf. unfold backupDestination. rewrite Hwf.
  rewrite fileName_filePath by by apply wallet_suffix_no_slash.
  unfold filePath.
  change (backupDir w ++ slash :: stem ++ qstr ".wallet")
    with (backupDir w ++ (slash :: stem) ++ qstr ".wallet").
  rewrite (app_assoc (backupDir w)).
  rewrite lastIndexOf_app by done.
  change 7 with (Z.of_nat (length (qstr ".wallet"))).
  rewrite replace_suffix. by rewrite <- app_assoc.
Qed.

Section BackupCopy.

Implicit Types w : World.

Lemma backupDir_cons w : ∃ c d, backupDir w = c :: d.
Proof.
  unfold backupDir, filePath. destruct (dataDir w); simpl; eauto.
Qed.

(** The two guards of the copy step are the operations' own. *)
Lemma backupCopy_fs w :
  fs (backupCopy w)
  = QFile_copy
      (QFile_remove (QDir_mkdir (fs w) (backupDir w)) (backupDestination w))
      (walletFile w) (backupDestination w) (copyTime (env w)).
Proof.
  unfold backupCopy. simpl. f_equal.
  assert (Hmk : (if negb (QDir_exists (fs w) (backupDir w))
                 then QDir_mkdir (fs w) (backupDir w) else fs w)
                = QDir_mkdir (fs w) (backupDir w)).
  { destruct (QDir_exists _ _) eqn:Hex; [|done]. simpl.
    destruct (backupDir_cons w) as (c & d & Hbd). rewrite Hbd in *.
    apply isDir_cons in Hex. unfold QDir_mkdir. by rewrite Hex. }
  rewrite Hmk. unfold QFile_exists, QFile_remove.
  by destruct (QDir_mkdir _ _ !! _) as [[]|].
Qed.

(** The copy step creates no file but the destination. *)
Lemma backupCopy_new_files w p :
  isFile (fs (backupCopy w)) p = true →
  isFile (fs w) p = true ∨ p = backupDestination w.
Proof.
  destruct (decide (p = backupDestination w)) as [|Hne]; [by right|].
  intros Hf. left. apply isFile_true in Hf as (c & t & Hf).
  apply isFile_true. exists c, t. revert Hf.
  rewrite backupCopy_fs, QFile_copy_lookup.
  assert (Hp : QFile_remove (QDir_mkdir (fs w) (backupDir w))
                 (backupDestination w) !! p = Some (File c t) →
               fs w !! p = Some (File c t)).
  { rewrite QFile_remove_lookup, QDir_mkdir_lookup.
    repeat case_decide; try done; by destruct_and?. }
  repeat case_match; try done; case_decide; try done; by destruct_and?.
Qed.

(** A file at the destination after the copy step is the copy made in
    this step: the wallet file's content, stamped by this copy. *)
Lemma backupCopy_fresh w c t :
  fs (backupCopy w) !! backupDestination w = Some (File c t) →
  t = copyTime (env w) ∧ ∃ t0, fs w !! walletFile w = Some (File c t0).
Proof.
  rewrite backupCopy_fs, QFile_copy_lookup.
  set (fs2 := QFile_remove (QDir_mkdir (fs w) (backupDir w))
                (backupDestination w)).
  assert (Hdest : ∀ c t, fs2 !! backupDestination w ≠ Some (File c t)).
  { intros c' t'. unfold fs2. rewrite QFile_remove_lookup.
    case_decide as Hd; [done|]. intros Hf. apply Hd. split; [done|].
    apply isFile_true. eauto. }
  assert (Hsrc : ∀ c' t', fs2 !! walletFile w = Some (File c' t') →
                          fs w !! walletFile w = Some (File c' t')).
  { intros c' t'. unfold fs2.
    rewrite QFile_remove_lookup, QDir_mkdir_lookup.
    repeat case_decide; try done. }
  destruct (fs2 !! walletFile w) as [[c' t'|]|] eqn:Hs;
    [|intros Hf; by apply Hdest in Hf..].
  case_decide; [|intros Hf; by apply Hdest in Hf].
  intros [= -> ->]. split; [done|]. exists t'. by apply Hsrc.
Qed.

(** When the data directory is there and nothing but a directory sits at
    the backup path or a file at the destination, the copy is made. *)
Lemma backupCopy_written w name c t0 :
  backupDestination w = filePath (backupDir w) name →
  slash ∉ name →
  fs w !! walletFile w = Some (File c t0) →
  walletFile w ≠ backupDestination w →
  isDir (fs w) (dataDir w) = true →
  fs w !! backupDir w = None ∨ fs w !! backupDir w = Some Dir →
  fs w !! backupDestination w ≠ Some Dir →
  fs (backupCopy w) !! backupDir w = Some Dir ∧
  fs (backupCopy w) !! backupDestination w
  = Some (File c (copyTime (env w))).
Proof.
  intros Hdest Hname Hsrc Hne Hdata Hbd Hnodir.
  assert (Hpar : parentPath (backupDir w) = dataDir w).
  { unfold backupDir. apply parentPath_filePath, backup_no_slash. }
  assert (Hpar' : parentPath (backupDestination w) = backupDir w).
  { rewrite Hdest. by apply parentPath_filePath. }
  assert (Hdb : backupDestination w ≠ backupDir w).
  { rewrite Hdest. unfold filePath. intros Heq.
    apply (f_equal length) in Heq. rewrite length_app in Heq.
    simpl in Heq. lia. }
  assert (Hsb : walletFile w ≠ backupDir w).
  { intros Heq. rewrite Heq in Hsrc. destruct Hbd; congruence. }
  set (fs1 := QDir_mkdir (fs w) (backupDir w)).
  assert (H1 : fs1 !! backupDir w = Some Dir).
  { unfold fs1. rewrite QDir_mkdir_lookup. rewrite Hpar.
    destruct Hbd as [Hbd|Hbd].
    - by rewrite decide_True.
    - rewrite decide_False; [done|]. intros (_ & ? & _). congruence. }
  assert (H1o : ∀ p, p ≠ backupDir w → fs1 !! p = fs w !! p).
  { intros p Hp. unfold fs1. rewrite QDir_mkdir_lookup.
    rewrite decide_False; [done|]. by intros (? & _). }
  set (fs2 := QFile_remove fs1 (backupDestination w)).
  assert (H2d : fs2 !! backupDestination w = None).
  { unfold fs2. rewrite QFile_remove_lookup. case_decide as Hd; [done|].
    rewrite H1o by done.
    destruct (fs w !! backupDestination w) as [[c' t'|]|] eqn:Hl; try done.
    exfalso. apply Hd. split; [done|]. apply isFile_true.
    rewrite H1o by done. eauto. }
  assert (H2o : ∀ p, p ≠ backupDestination w → fs2 !! p = fs1 !! p).
  { intros p Hp. unfold fs2. rewrite QFile_remove_lookup.
    rewrite decide_False; [done|]. by intros (? & _). }
  rewrite backupCopy_fs. fold fs1 fs2. rewrite !QFile_copy_lookup.
  rewrite (H2o (walletFile w)), H1o, Hsrc by done.
  assert (Hdir2 : isDir fs2 (parentPath (backupDestination w)) = true).
  { rewrite Hpar'. destruct (backupDir_cons w) as (a & d & Hcons).
    rewrite Hcons. apply isDir_cons. rewrite <- Hcons.
    rewrite H2o by done. done. }
  split.
  - rewrite decide_False by (intros (? & _); congruence).
    by rewrite H2o by done.
  - by rewrite decide_True.
Qed.

(** A missing backup directory is there after the copy step. *)
Lemma backupCopy_mkdir w :
  fs w !! backupDir w = None → isDir (fs w) (dataDir w) = true →
  fs (backupCopy w) !! backupDir w = Some Dir.
Proof.
  intros Hbd Hdata.
  assert (Hpar : parentPath (backupDir w) = dataDir w).
  { unfold backupDir. apply parentPath_filePath, backup_no_slash. }
  set (fs1 := QDir_mkdir (fs w) (backupDir w)).
  assert (H1 : fs1 !! backupDir w = Some Dir).
  { unfold fs1. rewrite QDir_mkdir_lookup, Hpar. by rewrite decide_True. }
  set (fs2 := QFile_remove fs1 (backupDestination w)).
  assert (H2 : fs2 !! backupDir w = Some Dir).
  { unfold fs2. rewrite QFile_remove_lookup. case_decide as Hd; [|done].
    destruct Hd as [_ Hf]. apply isFile_true in Hf as (? & ? & ?).
    congruence. }
  rewrite backupCopy_fs. fold fs1 fs2. rewrite QFile_copy_lookup.
  destruct (fs2 !! walletFile w) as [[c t|]|]; try done.
  case_decide as Hd; [|done]. destruct Hd as (Heq & Hn & _).
  rewrite <- Heq in Hn. congruence.
Qed.

End BackupCopy.

(** ** The retention scan *)

Section Retention.

Variable nameMatch : QString → QString → bool.

Lemma backupRetention_fs w :
  fs (backupRetention nameMatch w)
  = foldl QFile_remove (fs w)
      (absoluteFilePath <$> drop 10 (backupEntries nameMatch w)).
Proof. unfold backupRetention. simpl. by rewrite retentionLoop_drop. Qed.

(** After the loop the scan finds the first ten entries of the scan made
    before it, and nothing else. *)
Lemma backupRetention_kept w x :
  x ∈ backupEntries nameMatch (backupRetention nameMatch w)
  ↔ x ∈ take 10 (backupEntries nameMatch w).
Proof.
  pose proof (NoDup_entryInfoList nameMatch (fs w) (backupDir w)
                (backupFilter w)) as Hnd.
  assert (Hsplit : ∀ y, y ∈ backupEntries nameMatch w ↔
            y ∈ take 10 (backupEntries nameMatch w)
            ∨ y ∈ drop 10 (backupEntries nameMatch w)).
  { intros y. rewrite <- elem_of_app. by rewrite take_drop. }
  unfold backupEntries in *.
  change (backupDir (backupRetention nameMatch w)) with (backupDir w).
  change (backupFilter (backupRetention nameMatch w)) with (backupFilter w).
  rewrite elem_of_entryInfoList. rewrite backupRetention_fs.
  unfold backupEntries.
  set (L := entryInfoList nameMatch (fs w) (backupDir w) (backupFilter w)) in *.
  split.
  - intros (Hdir & [c Hc] & Hn & Hp & Hm).
    rewrite foldl_remove_isDir in Hdir.
    assert (Hfs : fs w !! absoluteFilePath x = Some (File c (lastModified x))).
    { destruct (foldl_remove_cases (absoluteFilePath <$> drop 10 L) (fs w)
                  (absoluteFilePath x)) as [Heq|[Heq _]]; congruence. }
    assert (HL : x ∈ L).
    { apply elem_of_entryInfoList. unfold listed. eauto 8. }
    apply Hsplit in HL as [?|Hdrop]; [done|].
    rewrite foldl_remove_gone in Hc; [done| |].
    + apply list_elem_of_fmap. eauto.
    + apply isFile_true. eauto.
  - intros Htake.
    assert (HL : x ∈ L) by (apply Hsplit; by left).
    apply elem_of_entryInfoList in HL as (Hdir & [c Hc] & Hn & Hp & Hm).
    unfold listed. rewrite foldl_remove_isDir.
    split_and!; try done.
    exists c. rewrite foldl_remove_other; [done|].
    rewrite <- (take_drop 10 L), fmap_app in Hnd.
    apply NoDup_app in Hnd as (_ & Hdisj & _).
    apply Hdisj. apply list_elem_of_fmap. eauto.
Qed.

Lemma backupRetention_Permutation w :
  backupEntries nameMatch (backupRetention nameMatch w)
  ≡ₚ take 10 (backupEntries nameMatch w).
Proof.
  apply NoDup_Permutation.
  - eapply NoDup_fmap_1. apply NoDup_entryInfoList.
  - eapply sublist_NoDup; [|apply sublist_take].
    eapply NoDup_fmap_1. apply NoDup_entryInfoList.
  - apply backupRetention_kept.
Qed.

(** Paths the scan did not list are left alone by the loop. *)
Lemma backupRetention_frame w p :
  (∀ x, x ∈ backupEntries nameMatch w → absoluteFilePath x ≠ p) →
  fs (backupRetention nameMatch w) !! p = fs w !! p.
Proof.
  intros Hp. rewrite backupRetention_fs. apply foldl_remove_other.
  intros Hin. apply list_elem_of_fmap in Hin as (x & -> & Hx).
  apply (Hp x); [|done]. rewrite <- (take_drop 10). apply elem_of_app. by right.
Qed.

(** The loop only removes files. *)
Lemma backupRetention_cases w p :
  fs (backupRetention nameMatch w) !! p = fs w !! p ∨
  (fs (backupRetention nameMatch w) !! p = None ∧ isFile (fs w) p = true).
Proof. rewrite backupRetention_fs. apply foldl_remove_cases. Qed.

(** A file that is strictly newer than every other file of the scan
    survives the loop. *)
Lemma backupRetention_keeps_newest w p c t :
  fs w !! p = Some (File c t) →
  (∀ y, y ∈ backupEntries nameMatch w → absoluteFilePath y ≠ p →
        lastModified y < t) →
  fs (backupRetention nameMatch w) !! p = Some (File c t).
Proof.
  intros Hp Hnew. rewrite backupRetention_fs, <- Hp.
  apply foldl_remove_other. intros Hin.
  apply list_elem_of_fmap in Hin as (x & Hpx & Hx).
  pose proof (entryInfoList_sorted nameMatch (fs w) (backupDir w)
                (backupFilter w)) as Hsorted.
  pose proof (NoDup_entryInfoList nameMatch (fs w) (backupDir w)
                (backupFilter w)) as Hnd.
  fold (backupEntries nameMatch w) in Hsorted, Hnd.
  assert (Hlisted : ∀ y, y ∈ backupEntries nameMatch w →
            ∃ c', fs w !! absoluteFilePath y = Some (File c' (lastModified y))).
  { intros y Hy. by apply elem_of_entryInfoList in Hy as (_ & ? & _). }
  destruct (backupEntries nameMatch w) as [|y rest]; [by apply elem_of_nil in Hx|].
  assert (Hrest : x ∈ rest).
  { change (drop 10 (y :: rest)) with (drop 9 rest) in Hx.
    by apply (subseteq_drop 9 rest). }
  destruct (Hlisted x) as [cx Hcx]; [apply elem_of_cons; by right|].
  rewrite <- Hpx, Hp in Hcx. injection Hcx as _ Ht.
  rewrite fmap_cons in Hnd. apply NoDup_cons in Hnd as [Hnotin _].
  assert (Hne : absoluteFilePath y ≠ p).
  { intros Heq. apply Hnotin. rewrite Heq, Hpx.
    apply list_elem_of_fmap. by exists x. }
  apply StronglySorted_cons in Hsorted as [Hall _].
  rewrite Forall_forall in Hall.
  pose proof (timeOrder_newer _ _ (Hall x Hrest)) as Hle.
  assert (lastModified y < t) by (apply Hnew; [apply elem_of_cons; by left|done]).
  lia.
Qed.

(** Between them the copy step and the loop create no file but the
    destination. *)
Lemma backupOnOpen_new_files w p :
  isFile (fs (backupOnOpen nameMatch w)) p = true →
  isFile (fs w) p = true ∨ p = backupDestination w.
Proof.
  intros Hp. apply backupCopy_new_files. unfold backupOnOpen in Hp.
  destruct (backupRetention_cases (backupCopy w) p) as [Heq|[_ ?]]; [|done].
  unfold isFile in *. by rewrite <- Heq.
Qed.

End Retention.


(** The destination and the copy for a wallet file named [stem.wallet]. *)
Lemma wallet_backup_destination_and_copy (w : World) (dir stem : QString) :
  slash ∉ stem →
  walletFile w = filePath dir (stem ++ qstr ".wallet") →
  let now := currentDateTime (env w) in
  let name :=
    stem ++ qstr "." ++ QStr.fmt2 (dt_day now) ++ qstr "-"
    ++ QStr.fmt2 (dt_month now) ++ qstr "-" ++ QStr.fmt4 (dt_year now)
    ++ qstr "-" ++ QStr.fmt2 (dt_hour now) ++ qstr "-"
    ++ QStr.fmt2 (dt_minute now) ++ qstr ".wallet" in
  let destination := filePath (filePath (dataDir w) (qstr "backup")) name in
  backupDestination w = destination ∧
  ∀ content t0,
    fs w !! walletFile w = Some (File content t0) →
    isDir (fs w) (dataDir w) = true →
    fs w !! backupDir w = None ∨ fs w !! backupDir w = Some Dir →
    fs w !! destination ≠ Some Dir →
    fs (backupCopy w) !! destination
    = Some (File content (copyTime (env w))).
Proof.
  intros Hstem Hwf now name destination.
  assert (Hd : backupDestination w = destination).
  { rewrite (backupDestination_wallet w dir stem) by done. done. }
  split; [done|].
  intros content t0 Hsrc Hdata Hbd Hnodir. rewrite <- Hd in *.
  assert (Hname : slash ∉ name).
  { change name with (stem ++ dateTimeStr now ++ qstr ".wallet").
    rewrite !elem_of_app. intros [?|[Hin|Hin]]; [done| |].
    - by apply dateTimeStr_no_slash in Hin.
    - revert Hin. by_evaluation. }
  eapply (backupCopy_written w name); eauto.
  rewrite Hd, Hwf. intros Heq. apply (f_equal fileName) in Heq.
  unfold destination in Heq. rewrite !fileName_filePath in Heq; [|done|].
  - apply (f_equal length) in Heq. unfold name in Heq.
    rewrite !length_app in Heq. simpl in Heq. lia.
  - by apply wallet_suffix_no_slash.
Qed.


(** ** The mutex and the stream *)

Lemma lockBalance_app h1 h2 :
  lockBalance (h1 ++ h2) = lockBalance h1 + lockBalance h2.
Proof.
  induction h1 as [|e h1 IH]; simpl; [lia|]. destruct e; lia.
Qed.

#[global] Instance filesKept_refl : Reflexive filesKept.
Proof. by intros fs p. Qed.

#[global] Instance filesKept_trans : Transitive filesKept.
Proof. intros f1 f2 f3 H12 H23 p Hp. by apply H23, H12. Qed.

Lemma filesKept_insert (fs : FileSystem) p c t :
  filesKept fs (<[p := File c t]> fs).
Proof.
  intros q Hq. unfold isFile in *.
  destruct (decide (q = p)) as [->|Hne];
    [by rewrite lookup_insert_eq|by rewrite lookup_insert_ne].
Qed.

(** What [openFile] leaves behind, by its result. *)
Lemma openFile_spec _file _readOnly w ok w1 :
  openFile _file _readOnly w = (ok, w1) →
  history w1
  = history w ++ Lock :: FileOpen _file _readOnly
                 :: (if ok then [] else [Unlock]) ∧
  m_mutex w1 = ok ∧ is_open w1 = ok ∧
  filesKept (fs w) (fs w1) ∧
  (_readOnly = true → fs w1 = fs w) ∧
  m_wallet w1 = m_wallet w ∧ walletFile w1 = walletFile w ∧
  dataDir w1 = dataDir w ∧ isEncrypted w1 = isEncrypted w ∧
  nodeAdapter w1 = nodeAdapter w ∧ env w1 = env w ∧
  m_isBackupInProgress w1 = m_isBackupInProgress w ∧
  m_lastWalletTransactionId w1 = m_lastWalletTransactionId w.
Proof.
  unfold openFile, fstream_open, lock, unlock, is_open.
  intros [= <- <-]. cbn.
  destruct (m_file w) as [[? ?]|] eqn:Hfile;
    repeat (progress (cbn; rewrite ?Hfile)).
  { rewrite <- ?app_assoc. by split_and!. }
  destruct _readOnly; cbn.
  - destruct (QFile_exists (fs w) _file);
      repeat (progress (cbn; rewrite ?Hfile));
      rewrite <- ?app_assoc; by split_and!.
  - destruct (fs w !! _file) as [[c t|]|] eqn:Hl;
      repeat (progress (cbn; rewrite ?Hfile));
      rewrite <- ?app_assoc; try (by split_and!).
    + split_and!; try done. apply filesKept_insert.
    + destruct (isDir (fs w) (parentPath _file));
        repeat (progress (cbn; rewrite ?Hfile));
        rewrite <- ?app_assoc; split_and!; try done.
      apply filesKept_insert.
Qed.

Lemma closeFile_spec w :
  history (closeFile w) = history w ++ [FileClose; Unlock] ∧
  m_mutex (closeFile w) = false ∧ is_open (closeFile w) = false ∧
  fs (closeFile w) = fs w ∧ m_wallet (closeFile w) = m_wallet w.
Proof.
  unfold closeFile, unlock, fstream_close. simpl.
  rewrite <- app_assoc. by split_and!.
Qed.

Lemma fstream_write_filesKept bytes w :
  filesKept (fs w) (fs (fstream_write bytes w)).
Proof.
  unfold fstream_write. destruct (m_file w) as [[p []]|]; simpl; try done.
  apply filesKept_insert.
Qed.

Ltac openFile_facts H :=
  apply openFile_spec in H as
    (?Hhist & ?Hmutex & ?Hopen & ?Hkept & ?Hro & ?Hwallet & ?Hwf & ?Hdd
     & ?Henc & ?Hnode & ?Henv & ?Hflag & ?Hid).

Lemma fstream_write_spec bytes w :
  history (fstream_write bytes w) = history w ∧
  m_mutex (fstream_write bytes w) = m_mutex w ∧
  m_file (fstream_write bytes w) = m_file w ∧
  m_wallet (fstream_write bytes w) = m_wallet w ∧
  walletFile (fstream_write bytes w) = walletFile w ∧
  m_isBackupInProgress (fstream_write bytes w) = m_isBackupInProgress w.
Proof.
  unfold fstream_write. destruct (m_file w) as [[p []]|] eqn:Hfile; cbn;
    rewrite ?Hfile; done.
Qed.

Lemma fstream_write_shape bytes w :
  ∃ fs', fstream_write bytes w = set_fs fs' w ∧ filesKept (fs w) fs'.
Proof.
  unfold fstream_write. destruct (m_file w) as [[p []]|] eqn:Hfile.
  - exists (fs w). split; [by destruct w|done].
  - eexists. split; [done|]. apply filesKept_insert.
  - exists (fs w). split; [by destruct w|done].
Qed.

(** ** Saving *)

Section Saving.

Implicit Types w : World.

Lemma save_to_spec _file _details _cache w wal :
  m_wallet w = Some wal →
  ∃ ok w1, save_to _file _details _cache w = Some (ok, w1) ∧
    m_wallet w1 = m_wallet w ∧
    m_isBackupInProgress w1 = m_isBackupInProgress w ∧
    walletFile w1 = walletFile w ∧
    filesKept (fs w) (fs w1) ∧
    m_mutex w1 = ok ∧ is_open w1 = ok ∧
    lockBalance (history w1)
    = lockBalance (history w) + (if ok then 1 else 0) ∧
    (ok = true ↔ ∃ bytes w0, w_save wal _details _cache = Returns bytes ∧
                    openFile _file false w = (true, w0)).
Proof.
  intros Hwal. unfold save_to. rewrite Hwal.
  destruct (openFile _file false w) as [ok0 w0] eqn:Hof.
  pose proof Hof as Hof'. openFile_facts Hof'.
  destruct ok0.
  - destruct (w_save wal _details _cache) as [bytes|code] eqn:Hsave.
    + eexists true, _. split; [done|].
      destruct (fstream_write_spec bytes w0)
        as (Fh & Fm & Ff & Fw & Fwf & Fb).
      unfold emit, is_open in *. cbn.
      rewrite Fh, Fm, Ff, Fw, Fwf, Fb, Hhist, !lockBalance_app. simpl.
      split_and!; try done; try lia; try congruence.
      * etrans; [done|apply fstream_write_filesKept].
      * split; [by eauto|done].
    + eexists false, _. split; [done|].
      destruct (closeFile_spec w0) as (Hh & Hm & Ho & Hf & Hw).
      rewrite Hh, Hhist, !lockBalance_app, Hf. simpl.
      split_and!; try done; try congruence; try lia.
      split; [done|]. by intros (? & ? & ? & _).
  - eexists false, _. split; [done|].
    rewrite Hhist, !lockBalance_app. simpl.
    split_and!; try done; try lia; try congruence.
    split; [done|]. by intros (? & ? & _ & ?).
Qed.

Lemma saveCompleted_spec _error w :
  lockBalance (history (saveCompleted _error w))
  = lockBalance (history w) - 1 ∧
  is_open (saveCompleted _error w) = false ∧
  m_mutex (saveCompleted _error w) = false ∧
  m_isBackupInProgress (saveCompleted _error w) = false ∧
  m_wallet (saveCompleted _error w) = m_wallet w.
Proof.
  unfold saveCompleted, emit, renameFile, closeFile, unlock, fstream_close.
  destruct (ec_value _error =? 0), (m_isBackupInProgress w) eqn:Hflag; cbn;
    rewrite ?Hflag; cbn; rewrite !lockBalance_app; simpl;
    split_and!; try done; lia.
Qed.

End Saving.

(** ** Opening *)

Arguments backupOnOpen : simpl never.
Arguments importLegacyWallet : simpl never.
Arguments loadWalletFile : simpl never.

Section Opening.

Variable WRONG_PASSWORD : Z.
Variable nameMatch : QString → QString → bool.

Implicit Types w : World.

Lemma importLegacyWallet_spec _password w ok w1 :
  importLegacyWallet WRONG_PASSWORD _password w = (ok, w1) →
  lockBalance (history w1) = lockBalance (history w) ∧
  is_open w1 = false ∧ m_mutex w1 = false ∧
  filesKept (fs w) (fs w1) ∧
  (ok = false → m_wallet w1 = None) ∧
  (ok = true → m_wallet w1 = m_wallet w) ∧
  dataDir w1 = dataDir w ∧ env w1 = env w ∧
  ∃ f rest, history w1 = history w ++ Lock :: FileOpen f false :: rest.
Proof.
  unfold importLegacyWallet.
  destruct (openFile _ false (setEncrypted _ w)) as [ok0 w0] eqn:Hof.
  openFile_facts Hof. cbn in *.
  destruct ok0.
  - destruct (importLegacyKeys (nodeAdapter w0) (walletFile w0) _password)
      as [bytes|code|].
    + intros [= <- <-].
      destruct (fstream_write_shape bytes w0) as (fs' & -> & Hk).
      unfold is_open. cbn. rewrite Hhist, !lockBalance_app. simpl.
      split_and!; try done; try lia.
      * by etrans.
      * do 2 eexists. by rewrite <- !app_assoc.
    + destruct (code =? WRONG_PASSWORD); intros [= <- <-];
        unfold is_open; cbn; rewrite Hhist, !lockBalance_app; simpl;
        (split_and!; try done; try lia);
        do 2 eexists; by rewrite <- !app_assoc.
    + intros [= <- <-].
      unfold is_open; cbn; rewrite Hhist, !lockBalance_app; simpl.
      split_and!; try done; try lia.
      do 2 eexists; by rewrite <- !app_assoc.
  - intros [= <- <-]. cbn. rewrite Hhist, !lockBalance_app. simpl.
    split_and!; try done; try lia. by eauto.
Qed.

Lemma loadWalletFile_spec wal _password w :
  let w1 := loadWalletFile wal _password w in
  fs w1 = fs w ∧ dataDir w1 = dataDir w ∧
  (∃ rest, history w1
           = history w ++ Lock :: FileOpen (walletFile w) true :: rest) ∧
  lockBalance (history w1)
  = lockBalance (history w) + (if is_open w1 then 1 else 0) ∧
  m_mutex w1 = is_open w1.
Proof.
  unfold loadWalletFile.
  destruct (openFile (walletFile w) true w) as [ok w0] eqn:Hof.
  openFile_facts Hof. destruct ok.
  - destruct (w_initAndLoad wal _password); cbn.
    + rewrite Hopen, Hhist, !lockBalance_app. simpl.
      split_and!; try done; try lia; by eauto.
    + unfold is_open. cbn. rewrite Hhist, !lockBalance_app. simpl.
      split_and!; try done; try lia; try by eauto.
      eexists. by rewrite <- !app_assoc.
  - cbn. rewrite Hopen, Hhist, !lockBalance_app. simpl.
    split_and!; try done; try lia; by eauto.
Qed.

Lemma backupOnOpen_fs_congr w w' :
  fs w = fs w' → walletFile w = walletFile w' → dataDir w = dataDir w' →
  env w = env w' →
  fs (backupOnOpen nameMatch w) = fs (backupOnOpen nameMatch w').
Proof.
  intros H1 H2 H3 H4.
  unfold backupOnOpen, backupRetention, backupEntries, backupCopy,
    backupFilter, backupDestination, backupDir. cbn.
  by rewrite H1, H2, H3, H4.
Qed.

(** What [open] does in front of an existing wallet file. *)
Lemma open_existing_spec _password w :
  QFile_exists (fs w) (walletFile w) = true →
  let w1 := open WRONG_PASSWORD nameMatch _password w in
  filesKept (fs (backupOnOpen nameMatch w)) (fs w1) ∧
  dataDir w1 = dataDir w ∧
  (∃ f ro rest,
     history w1
     = history w
       ++ Emit (walletStateChangedSignal (qstr "Opening wallet"))
       :: Lock :: FileOpen f ro :: rest) ∧
  lockBalance (history w1)
  = lockBalance (history w) + (if is_open w1 then 1 else 0) ∧
  m_mutex w1 = is_open w1.
Proof.
  intros Hex. unfold open. cbn. rewrite Hex.
  set (w0 := set_m_wallet _ _).
  set (wb := backupOnOpen nameMatch w0).
  assert (Hfs : fs wb = fs (backupOnOpen nameMatch w))
    by by apply backupOnOpen_fs_congr.
  assert (Hh : history wb
               = history w
                 ++ [Emit (walletStateChangedSignal (qstr "Opening wallet"))])
    by done.
  assert (Hdd : dataDir wb = dataDir w) by done.
  rewrite <- Hfs.
  assert (Hload : ∀ wi,
    filesKept (fs wb) (fs wi) → dataDir wi = dataDir w →
    lockBalance (history wi) = lockBalance (history wb) →
    let w1 := loadWalletFile (createWallet (nodeAdapter w)) _password wi in
    filesKept (fs wb) (fs w1) ∧ dataDir w1 = dataDir w ∧
    (∃ f ro rest, history w1 = history wi ++ Lock :: FileOpen f ro :: rest) ∧
    lockBalance (history w1)
    = lockBalance (history w) + (if is_open w1 then 1 else 0) ∧
    m_mutex w1 = is_open w1).
  { intros wi Hk Hd Hb.
    destruct (loadWalletFile_spec (createWallet (nodeAdapter w)) _password wi)
      as (L1 & L2 & [rest' L3] & L4 & L5).
    cbn. rewrite L1, L2, L4, Hb, Hh, lockBalance_app. simpl.
    split_and!; try done; try lia. by eauto. }
  destruct (QStr.endsWith (walletFile wb) _).
  - destruct (importLegacyWallet WRONG_PASSWORD _password wb)
      as [ok wi] eqn:Hi.
    apply importLegacyWallet_spec in Hi
      as (I1 & I2 & I3 & I4 & I5 & I6 & I7 & I8 & (f & rest & I9)).
    destruct ok.
    + destruct (Hload wi) as (A & B & (f' & ro & r & C) & D & E);
        [done|congruence|done|].
      split_and!; try done.
      rewrite C, I9, Hh, <- !app_assoc. simpl. eauto.
    + rewrite I2, I3, I1, Hh, lockBalance_app. simpl.
      split_and!; try done; try congruence; try lia.
      rewrite I9, Hh, <- app_assoc. simpl. eauto.
  - destruct (Hload wb) as (A & B & (f & ro & r & C) & D & E); try done.
    split_and!; try done.
    rewrite C, Hh, <- app_assoc. simpl. eauto.
Qed.

(** What [open] does when there is no wallet file: no lock, no stream. *)
Lemma open_new_spec _password _error w :
  QFile_exists (fs w) (walletFile w) = false →
  is_open w = false →
  let w1 := open WRONG_PASSWORD nameMatch _password w in
  history w1
  = history w ++ [Emit (walletStateChangedSignal (qstr "Opening wallet"))] ∧
  is_open w1 = false ∧
  lockBalance (history (initCompleted _error w1)) = lockBalance (history w).
Proof.
  intros Hex Hopen. unfold open. cbn. rewrite Hex.
  unfold initCompleted, is_open in *.
  destruct (w_initAndGenerate _ _); cbn; rewrite Hopen; cbn;
    rewrite !lockBalance_app; simpl; split_and!; try done; lia.
Qed.

End Opening.

(** ** Completion of an open *)

Section Completion.

Variable WRONG_PASSWORD : Z.
Hypothesis WRONG_PASSWORD_nonzero : WRONG_PASSWORD ≠ 0.
Variable nameMatch : QString → QString → bool.

Implicit Types w : World.

Lemma initCompleted_spec _error w :
  let w1 := initCompleted _error w in
  fs w1 = fs w ∧ m_wallet w1 = m_wallet w ∧ is_open w1 = false ∧
  isEncrypted w1 = isEncrypted w ∧
  lockBalance (history w1)
  = lockBalance (history w) - (if is_open w then 1 else 0) ∧
  m_mutex w1 = (if is_open w then false else m_mutex w).
Proof.
  unfold initCompleted. destruct (is_open w) eqn:Hopen; cbn.
  - rewrite !lockBalance_app. simpl. split_and!; try done; lia.
  - rewrite !lockBalance_app. simpl. split_and!; try done; lia.
Qed.

Lemma onWalletInitCompleted_wrong_password _errorText w :
  onWalletInitCompleted WRONG_PASSWORD WRONG_PASSWORD _errorText w
  = Some (deleteWallet
            (setEncrypted true
               (emit (openWalletWithPasswordSignal (isEncrypted w)) w))).
Proof.
  unfold onWalletInitCompleted.
  destruct (Z.eqb_spec WRONG_PASSWORD 0); [done|].
  by rewrite Z.eqb_refl.
Qed.

Lemma onWalletInitCompleted_other _error _errorText w :
  _error ≠ 0 → _error ≠ WRONG_PASSWORD →
  onWalletInitCompleted WRONG_PASSWORD _error _errorText w
  = Some (deleteWallet w).
Proof.
  intros H0 Hwp. unfold onWalletInitCompleted.
  destruct (Z.eqb_spec _error 0); [done|].
  by destruct (Z.eqb_spec _error WRONG_PASSWORD).
Qed.

End Completion.

Lemma app_cons_ne {A} (l r : list A) (x : A) : l ++ x :: r ≠ l.
Proof.
  intros H. apply (f_equal length) in H. rewrite length_app in H.
  simpl in H. lia.
Qed.

(** ** The read of the wallet file in [open] *)

Lemma backupOnOpen_set_fs (nameMatch : QString → QString → bool) (w : World) :
  backupOnOpen nameMatch w = set_fs (fs (backupOnOpen nameMatch w)) w.
Proof. done. Qed.

Lemma loadWalletFile_gone (wal : IWalletLegacy) (_password : QString)
  (w : World) :
  m_file w = None → fs w !! walletFile w = None →
  loadWalletFile wal _password w
  = unlock (record (FileOpen (walletFile w) true) (lock w)).
Proof.
  intros Hfile Hgone.
  unfold loadWalletFile, openFile, fstream_open, QFile_exists, is_open, lock,
    unlock.
  repeat (progress (cbn; rewrite ?Hfile, ?Hgone)). done.
Qed.

Lemma loadWalletFile_there (wal : IWalletLegacy) (_password : QString)
  (w : World) :
  m_file w = None → QFile_exists (fs w) (walletFile w) = true →
  loadWalletFile wal _password w
  = let w1 :=
      set_m_file (Some (walletFile w, true))
        (record (FileOpen (walletFile w) true) (lock w)) in
    match w_initAndLoad wal _password with
    | Returns _ => w1
    | ThrowsSystemError _ => deleteWallet (closeFile w1)
    end.
Proof.
  intros Hfile Hthere.
  unfold loadWalletFile, openFile, fstream_open, is_open, lock.
  repeat (progress (cbn; rewrite ?Hfile, ?Hthere)). done.
Qed.

Lemma open_existing_wallet (WRONG_PASSWORD : Z)
  (nameMatch : QString → QString → bool) (_password : QString) (w : World) :
  QFile_exists (fs w) (walletFile w) = true →
  QStr.endsWith (walletFile w) (qstr ".keys") = false →
  open WRONG_PASSWORD nameMatch _password w
  = loadWalletFile (createWallet (nodeAdapter w)) _password
      (set_fs (fs (backupOnOpen nameMatch w))
         (set_m_wallet (Some (createWallet (nodeAdapter w)))
            (emit (walletStateChangedSignal (qstr "Opening wallet"))
               (setEncrypted (negb (QStr.isEmpty _password)) w)))).
Proof.
  intros Hex Hkeys. unfold open. cbn. rewrite Hex.
  set (w0 := set_m_wallet _ _).
  assert (Hfs : fs (backupOnOpen nameMatch w0) = fs (backupOnOpen nameMatch w))
    by by apply backupOnOpen_fs_congr.
  rewrite (backupOnOpen_set_fs nameMatch w0), Hfs. cbn. cbn in Hkeys.
  by rewrite Hkeys.
Qed.

(** * The claims *)

(** C1.  After [backupOnOpen] the scan of the backup directory for the
    wallet's name filter finds at most ten files: the first ten, in
    modification-time order, of the files it found right after the copy.
    Every file the scan listed and the loop dropped is gone from the file
    system and is no newer than any file that was kept, and a path the scan
    did not list is left as it was. *)
Theorem backupOnOpen_keeps_ten_most_recent
  (nameMatch : QString → QString → bool) (w : World) :
  let scanned := backupEntries nameMatch (backupCopy w) in
  let after := backupOnOpen nameMatch w in
  let kept := backupEntries nameMatch after in
  (length kept ≤ 10)%nat ∧
  length kept = Nat.min 10 (length scanned) ∧
  kept ≡ₚ take 10 scanned ∧
  StronglySorted timeOrder scanned ∧
  (∀ x y, x ∈ scanned → x ∉ kept → y ∈ kept →
     fs after !! absoluteFilePath x = None ∧
     lastModified x ≤ lastModified y) ∧
  (∀ p, (∀ x, x ∈ scanned → absoluteFilePath x ≠ p) →
     fs after !! p = fs (backupCopy w) !! p).
Proof.
  intros scanned after kept.
  pose proof (backupRetention_Permutation nameMatch (backupCopy w)) as Hperm.
  fold scanned in Hperm. change (kept ≡ₚ take 10 scanned) in Hperm.
  assert (Hlen : length kept = Nat.min 10 (length scanned)).
  { rewrite Hperm. apply length_take. }
  assert (Hsorted : StronglySorted timeOrder scanned)
    by apply entryInfoList_sorted.
  split_and!; try done.
  - lia.
  - intros x y Hx Hnx Hy.
    assert (Hxd : x ∈ drop 10 scanned).
    { rewrite <- (take_drop 10 scanned) in Hx.
      apply elem_of_app in Hx as [Hx|Hx]; [|done].
      exfalso. apply Hnx. by rewrite Hperm. }
    rewrite Hperm in Hy. split.
    + unfold after, backupOnOpen. rewrite backupRetention_fs.
      apply foldl_remove_gone.
      * apply list_elem_of_fmap. eauto.
      * apply elem_of_entryInfoList in Hx as (_ & [c Hc] & _).
        apply isFile_true. eauto.
    + apply timeOrder_newer.
      rewrite <- (take_drop 10 scanned) in Hsorted.
      by eapply StronglySorted_app_1_elem_of.
  - apply backupRetention_frame.
Qed.

(** C7, as amended.  For a wallet file named [stem.wallet] the backup taken
    on open goes to [<dataDir>/backup/stem.dd-MM-yyyy-HH-mm.wallet], the
    fields being those of the current local time; and when the wallet file
    is a file, the data directory exists, the backup path is free or a
    directory and no directory sits at the destination, the copy step
    leaves there a copy of the wallet file. *)
Theorem backup_of_wallet_file_is_timestamped (w : World) (dir stem : QString) :
  slash ∉ stem →
  walletFile w = filePath dir (stem ++ qstr ".wallet") →
  let now := currentDateTime (env w) in
  let name :=
    stem ++ qstr "." ++ QStr.fmt2 (dt_day now) ++ qstr "-"
    ++ QStr.fmt2 (dt_month now) ++ qstr "-" ++ QStr.fmt4 (dt_year now)
    ++ qstr "-" ++ QStr.fmt2 (dt_hour now) ++ qstr "-"
    ++ QStr.fmt2 (dt_minute now) ++ qstr ".wallet" in
  let destination := filePath (filePath (dataDir w) (qstr "backup")) name in
  backupDestination w = destination ∧
  ∀ content t0,
    fs w !! walletFile w = Some (File content t0) →
    isDir (fs w) (dataDir w) = true →
    fs w !! backupDir w = None ∨ fs w !! backupDir w = Some Dir →
    fs w !! destination ≠ Some Dir →
    fs (backupCopy w) !! destination
    = Some (File content (copyTime (env w))).
Proof. exact (wallet_backup_destination_and_copy w dir stem). Qed.

(** C5.  Two runs of [backupOnOpen] on the same wallet file within one
    calendar minute have one destination, and between them they create no
    file but that one.  A file found there after the second run is the copy
    the second run made, never the first run's.  When the second run finds
    a backup at the destination, its copy step leaves there the wallet
    file as it is now, with the time of the second copy; the rotation that
    follows either keeps that copy or deletes it, and keeps it when every
    other file of its scan is older. *)
Theorem same_minute_backup_is_overwritten
  (nameMatch : QString → QString → bool) (w : World) (later : Env) :
  currentDateTime later = currentDateTime (env w) →
  let destination := backupDestination w in
  let w1 := backupOnOpen nameMatch w in
  let w2 := backupOnOpen nameMatch (set_env later w1) in
  backupDestination (set_env later w1) = destination ∧
  (∀ p, isFile (fs w2) p = true → isFile (fs w) p = true ∨ p = destination) ∧
  (∀ content t,
     fs w2 !! destination = Some (File content t) →
     t = copyTime later ∧
     ∃ t0, fs w1 !! walletFile w = Some (File content t0)) ∧
  (∀ dir stem content t0 old told,
     slash ∉ stem →
     walletFile w = filePath dir (stem ++ qstr ".wallet") →
     fs w1 !! walletFile w = Some (File content t0) →
     fs w1 !! destination = Some (File old told) →
     isDir (fs w1) (dataDir w) = true →
     fs w1 !! backupDir w = Some Dir →
     let copied := backupCopy (set_env later w1) in
     fs copied !! destination = Some (File content (copyTime later)) ∧
     (fs w2 !! destination = Some (File content (copyTime later)) ∨
      fs w2 !! destination = None) ∧
     ((∀ y, y ∈ backupEntries nameMatch copied →
            absoluteFilePath y ≠ destination →
            lastModified y < copyTime later) →
      fs w2 !! destination = Some (File content (copyTime later)))).
Proof.
  intros Hmin destination w1 w2.
  assert (Hd : backupDestination (set_env later w1) = destination).
  { unfold backupDestination, backupDir. simpl. by rewrite Hmin. }
  split_and!; [done| | |].
  - intros p Hp. unfold w2 in Hp.
    apply backupOnOpen_new_files in Hp as [Hp|Hp]; [|right; congruence].
    change (isFile (fs w1) p = true) in Hp. unfold w1 in Hp.
    by apply backupOnOpen_new_files in Hp.
  - intros content t Hf. unfold w2, backupOnOpen in Hf.
    destruct (backupRetention_cases nameMatch
                (backupCopy (set_env later w1)) destination) as [Heq|[Hn _]];
      [|congruence].
    rewrite Heq, <- Hd in Hf. by apply backupCopy_fresh in Hf.
  - intros dir stem content t0 old told Hstem Hwf Hsrc Hold Hdata Hbd copied.
    destruct (wallet_backup_destination_and_copy (set_env later w1) dir stem
                Hstem Hwf) as [Hdest Hcopy].
    rewrite Hd in Hdest.
    assert (Hcopied : fs copied !! destination
                      = Some (File content (copyTime later))).
    { rewrite Hdest. apply (Hcopy content t0); try done.
      - by right.
      - rewrite <- Hdest. change (fs (set_env later w1)) with (fs w1).
        by rewrite Hold. }
    split; [done|]. unfold w2, backupOnOpen. fold copied. split.
    + destruct (backupRetention_cases nameMatch copied destination)
        as [Heq|[Hn _]]; [left; by rewrite Heq|by right].
    + intros Hnew. by apply backupRetention_keeps_newest.
Qed.

(** C8.  When nothing is at the backup path and the data directory
    exists, [backupOnOpen] leaves a directory at the backup path; the copy
    of a wallet file named [stem.wallet] is then made in it; and [open]
    goes on to open a file for the load. *)
Theorem missing_backup_directory_is_created
  (WRONG_PASSWORD : Z) (nameMatch : QString → QString → bool) (w : World) :
  fs w !! backupDir w = None →
  isDir (fs w) (dataDir w) = true →
  fs (backupOnOpen nameMatch w) !! backupDir w = Some Dir ∧
  (∀ dir stem content t0,
     slash ∉ stem →
     walletFile w = filePath dir (stem ++ qstr ".wallet") →
     fs w !! walletFile w = Some (File content t0) →
     fs w !! backupDestination w ≠ Some Dir →
     fs (backupCopy w) !! backupDestination w
     = Some (File content (copyTime (env w)))) ∧
  (∀ _password,
     QFile_exists (fs w) (walletFile w) = true →
     ∃ f ro rest,
       history (open WRONG_PASSWORD nameMatch _password w)
       = history w
         ++ Emit (walletStateChangedSignal (qstr "Opening wallet"))
         :: Lock :: FileOpen f ro :: rest).
Proof.
  intros Hbd Hdata. split_and!.
  - unfold backupOnOpen.
    destruct (backupRetention_cases nameMatch (backupCopy w) (backupDir w))
      as [->|[_ Hf]].
    + by apply backupCopy_mkdir.
    + apply isFile_true in Hf as (c & t & Hf).
      rewrite backupCopy_mkdir in Hf; done.
  - intros dir stem content t0 Hstem Hwf Hsrc Hnodir.
    destruct (wallet_backup_destination_and_copy w dir stem Hstem Hwf)
      as [Hd Hw].
    rewrite Hd in *. eapply Hw; eauto.
  - intros _password Hex.
    by destruct (open_existing_spec WRONG_PASSWORD nameMatch _password w Hex)
      as (_ & _ & ? & _).
Qed.

(** C2.  When a save completes without error: with the backup flag set the
    file system is left as it is and the flag is cleared; with the flag
    clear the primary wallet file is removed and [<walletFile>.temp] renamed
    to it, so that, the temporary file being there (and the primary path
    not a directory, its directory in place), the primary path afterwards
    holds the temporary file, the temporary path nothing, and every other
    path what it held. *)
Theorem saveCompleted_promotes_only_a_normal_save
  (w : World) (_error : error_code) :
  ec_value _error = 0 →
  let after := saveCompleted _error w in
  let temp := walletFile w ++ qstr ".temp" in
  (m_isBackupInProgress w = true →
     fs after = fs w ∧ m_isBackupInProgress after = false) ∧
  (m_isBackupInProgress w = false →
     fs after
     = QFile_rename (QFile_remove (fs w) (walletFile w)) temp (walletFile w) ∧
     ∀ content t,
       fs w !! temp = Some (File content t) →
       fs w !! walletFile w ≠ Some Dir →
       isDir (fs w) (parentPath (walletFile w)) = true →
       fs after !! walletFile w = Some (File content t) ∧
       fs after !! temp = None ∧
       ∀ p, p ≠ walletFile w → p ≠ temp → fs after !! p = fs w !! p).
Proof.
  intros Herr after temp. unfold after, saveCompleted. rewrite Herr. simpl.
  split.
  - by intros ->.
  - intros ->. simpl. split; [done|].
    intros content t Htemp Hnodir Hpar.
    assert (Hne : temp ≠ walletFile w) by apply app_cons_ne.
    set (fs1 := QFile_remove (fs w) (walletFile w)).
    assert (H1 : fs1 !! walletFile w = None).
    { unfold fs1. rewrite QFile_remove_lookup. case_decide as Hd; [done|].
      destruct (fs w !! walletFile w) as [[c' t'|]|] eqn:Hl; try done.
      exfalso. apply Hd. split; [done|]. apply isFile_true; eauto. }
    assert (H1o : ∀ p, p ≠ walletFile w → fs1 !! p = fs w !! p).
    { intros p Hp. unfold fs1. rewrite QFile_remove_lookup.
      rewrite decide_False; [done|]. by intros [? _]. }
    assert (Hdir : isDir fs1 (parentPath (walletFile w)) = true).
    { destruct (parentPath (walletFile w)) as [|a d] eqn:Hp; [done|].
      apply isDir_cons. apply isDir_cons in Hpar.
      rewrite H1o; [done|]. intros Heq. rewrite Heq in Hpar. congruence. }
    change (QFile_rename fs1 _ (walletFile w))
      with (QFile_rename fs1 temp (walletFile w)).
    split_and!.
    + rewrite QFile_rename_lookup, (H1o temp), Htemp by done.
      rewrite decide_True by done. by rewrite decide_True.
    + rewrite QFile_rename_lookup, (H1o temp), Htemp by done.
      rewrite decide_True by done. rewrite decide_False by done.
      by rewrite decide_True.
    + intros p Hp Hpt.
      rewrite QFile_rename_lookup, (H1o temp), Htemp by done.
      rewrite decide_True by done. rewrite !decide_False by done.
      by apply H1o.
Qed.

(** C3.  [openFile] takes the lock, then attempts the open; a failed open
    is followed by the release, a successful one leaves the lock held and
    the stream open, and the [closeFile] that follows closes and releases.
    Over their callers acquisitions and releases pair up: a save that
    cannot open or whose engine call throws ends released, a started save
    is released by [saveCompleted] whatever the error; a legacy import
    ends released on each of its paths; an open of an existing wallet file
    holds the lock exactly while the stream is open, and [initCompleted]
    releases it; an open without a wallet file takes no lock and, no stream
    being open, [initCompleted] releases none. *)
Theorem lock_is_taken_first_and_released_once
  (WRONG_PASSWORD : Z) (nameMatch : QString → QString → bool) (w : World) :
  (∀ _file _readOnly,
     let r := openFile _file _readOnly w in
     history r.2
     = history w ++ Lock :: FileOpen _file _readOnly
                    :: (if r.1 then [] else [Unlock]) ∧
     m_mutex r.2 = r.1 ∧ is_open r.2 = r.1 ∧
     history (closeFile r.2) = history r.2 ++ [FileClose; Unlock] ∧
     m_mutex (closeFile r.2) = false ∧ is_open (closeFile r.2) = false ∧
     (r.1 = true →
      lockBalance (history (closeFile r.2)) = lockBalance (history w)) ∧
     (r.1 = false → lockBalance (history r.2) = lockBalance (history w))) ∧
  (∀ _file _details _cache wal,
     m_wallet w = Some wal →
     ∃ ok w1,
       save_to _file _details _cache w = Some (ok, w1) ∧
       m_mutex w1 = ok ∧ is_open w1 = ok ∧
       (∀ code,
          w_save wal _details _cache = ThrowsSystemError code → ok = false) ∧
       (ok = false → lockBalance (history w1) = lockBalance (history w)) ∧
       (ok = true →
        ∀ _error,
          lockBalance (history (saveCompleted _error w1))
          = lockBalance (history w) ∧
          m_mutex (saveCompleted _error w1) = false ∧
          is_open (saveCompleted _error w1) = false)) ∧
  (∀ _password,
     let r := importLegacyWallet WRONG_PASSWORD _password w in
     lockBalance (history r.2) = lockBalance (history w) ∧
     m_mutex r.2 = false ∧ is_open r.2 = false) ∧
  (∀ _password _error,
     QFile_exists (fs w) (walletFile w) = true →
     let w1 := open WRONG_PASSWORD nameMatch _password w in
     lockBalance (history w1)
     = lockBalance (history w) + (if is_open w1 then 1 else 0) ∧
     m_mutex w1 = is_open w1 ∧
     lockBalance (history (initCompleted _error w1))
     = lockBalance (history w) ∧
     m_mutex (initCompleted _error w1) = false ∧
     is_open (initCompleted _error w1) = false) ∧
  (∀ _password _error,
     QFile_exists (fs w) (walletFile w) = false →
     is_open w = false →
     let w1 := open WRONG_PASSWORD nameMatch _password w in
     lockBalance (history w1) = lockBalance (history w) ∧
     lockBalance (history (initCompleted _error w1))
     = lockBalance (history w)).
Proof.
  split_and!.
  - intros _file _readOnly r.
    destruct (openFile _file _readOnly w) as [ok w1] eqn:Hof.
    subst r. cbn [fst snd]. openFile_facts Hof.
    destruct (closeFile_spec w1) as (Ch & Cm & Co & _ & _).
    rewrite Ch, Hhist, !lockBalance_app.
    split_and!; try done; intros ->; simpl; lia.
  - intros _file _details _cache wal Hwal.
    destruct (save_to_spec _file _details _cache w wal Hwal)
      as (ok & w1 & Hs & _ & _ & _ & _ & Hm & Ho & Hb & Hiff).
    exists ok, w1. split_and!; try done.
    + intros code Hthrow. destruct ok; [|done].
      destruct Hiff as [Hiff _]. destruct Hiff as (? & ? & ? & _); [done|].
      congruence.
    + intros ->. rewrite Hb. lia.
    + intros -> _error.
      destruct (saveCompleted_spec _error w1) as (Sb & So & Sm & _ & _).
      rewrite Sb, Hb. split_and!; try done; lia.
  - intros _password r.
    destruct (importLegacyWallet WRONG_PASSWORD _password w) as [ok w1] eqn:Hi.
    subst r. cbn [fst snd].
    by apply importLegacyWallet_spec in Hi as (? & ? & ? & _).
  - intros _password _error Hex w1.
    destruct (open_existing_spec WRONG_PASSWORD nameMatch _password w Hex)
      as (_ & _ & _ & Hb & Hm).
    fold w1 in Hb, Hm.
    destruct (initCompleted_spec _error w1) as (_ & _ & Io & _ & Ib & Im).
    rewrite Ib, Hb, Im, Hm. split_and!; try done.
    + destruct (is_open w1); lia.
    + by destruct (is_open w1).
  - intros _password _error Hex Hopen w1.
    destruct (open_new_spec WRONG_PASSWORD nameMatch _password _error w
                Hex Hopen) as (Hh & _ & Hb).
    fold w1 in Hh, Hb. split; [|done].
    rewrite Hh, lockBalance_app. simpl. lia.
Qed.

(** C4, as amended.  [WRONG_PASSWORD] asks for the password again on two
    paths only: when the completion of an open reports it
    ([onWalletInitCompleted]), and when the legacy importer throws a
    [std::system_error] with that code.  The wallet is then marked
    encrypted, and the wallet object is torn down to null as for any other
    error on these paths, which asks for nothing.  A legacy import that
    cannot open its target tears the wallet object down and emits nothing.
    An [initAndLoad] that throws inside [open], whatever the code of its
    [std::system_error], closes the stream, releases the lock and tears the
    wallet object down, and emits nothing: the code is not looked at, so
    [WRONG_PASSWORD] asks for nothing there.  A save whose engine call
    throws, or whose completion reports an error, releases the handle and
    leaves the wallet object in place. *)
Theorem wrong_password_reprompts_and_errors_release
  (WRONG_PASSWORD : Z) (nameMatch : QString → QString → bool) (w : World) :
  WRONG_PASSWORD ≠ 0 →
  (∀ _errorText,
     ∃ w', onWalletInitCompleted WRONG_PASSWORD WRONG_PASSWORD _errorText w
           = Some w' ∧
       m_wallet w' = None ∧ isEncrypted w' = true ∧
       history w'
       = history w ++ [Emit (openWalletWithPasswordSignal (isEncrypted w))]) ∧
  (∀ _error _errorText,
     _error ≠ 0 → _error ≠ WRONG_PASSWORD →
     ∃ w', onWalletInitCompleted WRONG_PASSWORD _error _errorText w = Some w' ∧
       m_wallet w' = None ∧ isEncrypted w' = isEncrypted w ∧
       history w' = history w) ∧
  (∀ _password,
     let target :=
       QStr.replace (walletFile w)
         (QStr.lastIndexOf (walletFile w) (qstr ".keys")) 5 (qstr ".wallet") in
     let opened :=
       (openFile target false
          (setEncrypted (negb (QStr.isEmpty _password)) w)).1 in
     let r := importLegacyWallet WRONG_PASSWORD _password w in
     let released :=
       history w ++ [Lock; FileOpen target false; FileClose; Unlock] in
     (opened = false →
      r.1 = false ∧ m_wallet r.2 = None ∧ m_mutex r.2 = false ∧
      isEncrypted r.2 = negb (QStr.isEmpty _password) ∧
      history r.2 = history w ++ [Lock; FileOpen target false; Unlock]) ∧
     match importLegacyKeys (nodeAdapter w) (walletFile w) _password with
     | ImportDone _ => True
     | ImportSystemError code =>
         r.1 = false ∧ m_wallet r.2 = None ∧
         is_open r.2 = false ∧ m_mutex r.2 = false ∧
         (opened = true →
          if code =? WRONG_PASSWORD then
            isEncrypted r.2 = true ∧
            history r.2
            = released ++ [Emit (openWalletWithPasswordSignal
                                   (negb (QStr.isEmpty _password)))]
          else
            isEncrypted r.2 = negb (QStr.isEmpty _password) ∧
            history r.2 = released)
     | ImportRuntimeError =>
         r.1 = false ∧ m_wallet r.2 = None ∧
         is_open r.2 = false ∧ m_mutex r.2 = false ∧
         (opened = true →
          isEncrypted r.2 = negb (QStr.isEmpty _password) ∧
          history r.2 = released)
     end) ∧
  (∀ wal _password code,
     w_initAndLoad wal _password = ThrowsSystemError code →
     let w1 := loadWalletFile wal _password w in
     is_open w1 = false ∧ m_mutex w1 = false ∧
     isEncrypted w1 = isEncrypted w ∧
     ((openFile (walletFile w) true w).1 = true →
      m_wallet w1 = None ∧
      history w1
      = history w
        ++ [Lock; FileOpen (walletFile w) true; FileClose; Unlock])) ∧
  (∀ _password code,
     QFile_exists (fs w) (walletFile w) = true →
     QStr.endsWith (walletFile w) (qstr ".keys") = false →
     m_file w = None →
     QFile_exists (fs (backupOnOpen nameMatch w)) (walletFile w) = true →
     w_initAndLoad (createWallet (nodeAdapter w)) _password
     = ThrowsSystemError code →
     let w1 := open WRONG_PASSWORD nameMatch _password w in
     m_wallet w1 = None ∧ is_open w1 = false ∧ m_mutex w1 = false ∧
     isEncrypted w1 = negb (QStr.isEmpty _password) ∧
     history w1
     = history w
       ++ [Emit (walletStateChangedSignal (qstr "Opening wallet"));
           Lock; FileOpen (walletFile w) true; FileClose; Unlock]) ∧
  (∀ _file _details _cache wal code,
     m_wallet w = Some wal →
     w_save wal _details _cache = ThrowsSystemError code →
     ∃ w1, save_to _file _details _cache w = Some (false, w1) ∧
       m_wallet w1 = Some wal ∧ is_open w1 = false ∧ m_mutex w1 = false) ∧
  (∀ _error,
     m_wallet (saveCompleted _error w) = m_wallet w ∧
     is_open (saveCompleted _error w) = false ∧
     m_mutex (saveCompleted _error w) = false).
Proof.
  intros Hnz. split_and!.
  - intros _errorText. eexists. split.
    + by apply onWalletInitCompleted_wrong_password.
    + done.
  - intros _error _errorText H0 Hwp. eexists. split.
    + by apply onWalletInitCompleted_other.
    + done.
  - intros _password target opened r released.
    subst r opened released. unfold importLegacyWallet. fold target.
    destruct (openFile target false _) as [ok w0] eqn:Hof.
    openFile_facts Hof. cbn in Hhist, Hwf, Hnode, Henc. rewrite Hnode, Hwf.
    cbn [fst snd]. split.
    { intros ->. cbn. rewrite Hhist. by split_and!. }
    destruct (importLegacyKeys (nodeAdapter w) (walletFile w) _password)
      as [bytes|code|]; [done| |].
    + destruct ok.
      * destruct (code =? WRONG_PASSWORD); unfold is_open; cbn;
          rewrite Hhist, <- ?app_assoc; by split_and!.
      * cbn. split_and!; done.
    + destruct ok.
      * unfold is_open. cbn. rewrite Hhist, <- ?app_assoc. by split_and!.
      * cbn. split_and!; done.
  - intros wal _password code Hthrow w1. subst w1. unfold loadWalletFile.
    destruct (openFile (walletFile w) true w) as [ok w0] eqn:Hof.
    openFile_facts Hof. rewrite Hthrow. destruct ok; cbn [fst snd].
    + unfold is_open. cbn. rewrite Hhist, <- ?app_assoc. by split_and!.
    + by split_and!.
  - intros _password code Hex Hkeys Hfile Hthere Hthrow w1. subst w1.
    rewrite open_existing_wallet by done.
    rewrite loadWalletFile_there by done. cbv zeta. rewrite Hthrow.
    unfold is_open, closeFile, fstream_close, lock, unlock. cbn.
    rewrite <- ?app_assoc. by split_and!.
  - intros _file _details _cache wal code Hwal Hthrow.
    destruct (save_to_spec _file _details _cache w wal Hwal)
      as (ok & w1 & Hs & Hw & _ & _ & _ & Hm & Ho & _ & Hiff).
    destruct ok.
    + destruct Hiff as [Hiff _]. destruct Hiff as (? & ? & ? & _); [done|].
      congruence.
    + exists w1. split_and!; try done. congruence.
  - intros _error.
    by destruct (saveCompleted_spec _error w) as (_ & ? & ? & _ & ?).
Qed.


(** C9.  [getAddress], [getActualBalance] and [getPendingBalance] return
    the empty string, zero and zero when no wallet is open and when the
    engine call throws [std::system_error]; otherwise what the engine
    returns. *)
Theorem queries_fall_back_to_defaults (w : World) :
  (m_wallet w = None →
   getAddress w = [] ∧ getActualBalance w = 0 ∧ getPendingBalance w = 0) ∧
  (∀ wal, m_wallet w = Some wal →
     (∀ code, w_getAddress wal = ThrowsSystemError code → getAddress w = []) ∧
     (∀ code, w_actualBalance wal = ThrowsSystemError code →
              getActualBalance w = 0) ∧
     (∀ code, w_pendingBalance wal = ThrowsSystemError code →
              getPendingBalance w = 0) ∧
     (∀ a, w_getAddress wal = Returns a → getAddress w = a) ∧
     (∀ b, w_actualBalance wal = Returns b → getActualBalance w = b) ∧
     (∀ b, w_pendingBalance wal = Returns b → getPendingBalance w = b)).
Proof.
  unfold getAddress, getActualBalance, getPendingBalance. split.
  - by intros ->.
  - intros wal ->. split_and!; by intros ? ->.
Qed.

(** C10.  With a recorded transaction id, [notifyAboutLastTransaction]
    emits [walletTransactionCreatedSignal] for it once and stores the
    sentinel; with the sentinel stored it does nothing; so a second call in
    a row changes nothing and emits nothing. *)
Theorem notifyAboutLastTransaction_emits_once (w : World) :
  let w1 := notifyAboutLastTransaction w in
  (m_lastWalletTransactionId w ≠ quint64_max →
   history w1
   = history w
     ++ [Emit (walletTransactionCreatedSignal (m_lastWalletTransactionId w))] ∧
   m_lastWalletTransactionId w1 = quint64_max) ∧
  (m_lastWalletTransactionId w = quint64_max → w1 = w) ∧
  notifyAboutLastTransaction w1 = w1 ∧
  history (notifyAboutLastTransaction w1) = history w1.
Proof.
  intros w1. subst w1. unfold notifyAboutLastTransaction.
  destruct (Z.eqb_spec (m_lastWalletTransactionId w) quint64_max) as [Heq|Hne];
    cbn.
  - rewrite Heq. cbn. destruct (Z.eqb_spec (m_lastWalletTransactionId w)
                                  quint64_max); done.
  - split_and!; done.
Qed.

(** * The claims on the example data *)

Lemma backupOnOpen_keeps_ten_most_recent_witness :
  length (backupEntries wildcardMatch (backupCopy crowdedWorld)) = 13%nat ∧
  length (backupEntries wildcardMatch
            (backupOnOpen wildcardMatch crowdedWorld)) = 10%nat ∧
  fs (backupOnOpen wildcardMatch crowdedWorld)
    !! qstr "/data/backup/wallet.01-03-2017-10-00.wallet" = None.
Proof.
  pose proof (backupOnOpen_keeps_ten_most_recent wildcardMatch crowdedWorld)
    as H.
  cbv zeta in H. destruct H as (_ & Hlen & _ & _ & Hold & _).
  split; [by vm_compute|]. split; [rewrite Hlen; by vm_compute|].
  apply (Hold
    (mkInfo (qstr "/data/backup/wallet.01-03-2017-10-00.wallet")
       (qstr "wallet.01-03-2017-10-00.wallet") 101)
    (mkInfo (qstr "/data/backup/wallet.09-03-2017-14-05.wallet")
       (qstr "wallet.09-03-2017-14-05.wallet") 1000)).
  - by_evaluation.
  - by_evaluation.
  - by_evaluation.
Defined.

Lemma saveCompleted_promotes_only_a_normal_save_witness :
  fs savedWorld !! qstr "/home/wallet.wallet"
    = Some (File (qstr "keys-and-cache") 900) ∧
  fs (saveCompleted noError savedWorld) !! qstr "/home/wallet.wallet"
    = Some (File (qstr "wallet-bytes") 1000) ∧
  fs (saveCompleted noError savedWorld) !! qstr "/home/wallet.wallet.temp"
    = None ∧
  m_isBackupInProgress backedUpWorld = true ∧
  fs (saveCompleted noError backedUpWorld) = fs backedUpWorld.
Proof.
  destruct (saveCompleted_promotes_only_a_normal_save savedWorld noError
              eq_refl) as [_ Hnormal].
  destruct (saveCompleted_promotes_only_a_normal_save backedUpWorld noError
              eq_refl) as [Hbackup _].
  destruct (Hnormal eq_refl) as [_ Hpromote].
  destruct (Hpromote (qstr "wallet-bytes") 1000) as (Hp & Ht & _).
  - by vm_compute.
  - by vm_compute.
  - by vm_compute.
  - split; [by vm_compute|].
    split; [exact Hp|]. split; [exact Ht|].
    split; [by vm_compute|]. exact (proj1 (Hbackup eq_refl)).
Defined.

Lemma lock_is_taken_first_and_released_once_witness :
  history (openFile (qstr "/home/wallet.wallet") true openWorld).2
    = [Lock; FileOpen (qstr "/home/wallet.wallet") true] ∧
  history (openFile (qstr "/home/missing.wallet") true openWorld).2
    = [Lock; FileOpen (qstr "/home/missing.wallet") true; Unlock] ∧
  lockBalance
    (history (initCompleted noError
                (open exampleWrongPassword wildcardMatch [] freshWorld)))
    = 0.
Proof.
  destruct (lock_is_taken_first_and_released_once exampleWrongPassword
              wildcardMatch openWorld) as (Hopen & _ & _ & _ & _).
  destruct (lock_is_taken_first_and_released_once exampleWrongPassword
              wildcardMatch freshWorld) as (_ & _ & _ & Hinit & _).
  destruct (Hopen (qstr "/home/wallet.wallet") true) as (H1 & _).
  destruct (Hopen (qstr "/home/missing.wallet") true) as (H2 & _).
  destruct (Hinit [] noError eq_refl) as (_ & _ & H3 & _).
  split; [exact H1|]. split; [exact H2|]. exact H3.
Defined.

Lemma wrong_password_reprompts_and_errors_release_witness :
  (isOpen <$> onWalletInitCompleted exampleWrongPassword exampleWrongPassword
                [] openWorld) = Some false ∧
  (∃ w', onWalletInitCompleted exampleWrongPassword exampleWrongPassword []
           openWorld = Some w' ∧
     m_wallet w' = None ∧ isEncrypted w' = true ∧
     history w' = [Emit (openWalletWithPasswordSignal false)]) ∧
  w_initAndLoad (createWallet (nodeAdapter lockedWorld)) (qstr "guess")
  = ThrowsSystemError exampleWrongPassword ∧
  history (open exampleWrongPassword wildcardMatch (qstr "guess") lockedWorld)
  = [Emit (walletStateChangedSignal (qstr "Opening wallet"));
     Lock; FileOpen (qstr "/home/wallet.wallet") true; FileClose; Unlock].
Proof.
  assert (Hnz : exampleWrongPassword ≠ 0) by (by vm_compute).
  destruct (wrong_password_reprompts_and_errors_release exampleWrongPassword
              wildcardMatch openWorld Hnz) as (Hwp & _).
  destruct (wrong_password_reprompts_and_errors_release exampleWrongPassword
              wildcardMatch lockedWorld Hnz) as (_ & _ & _ & _ & Hopen & _).
  split; [by vm_compute|]. split; [exact (Hwp [])|].
  split; [reflexivity|].
  destruct (Hopen (qstr "guess") exampleWrongPassword) as (_ & _ & _ & _ & Hh).
  - vm_compute; reflexivity.
  - vm_compute; reflexivity.
  - reflexivity.
  - vm_compute; reflexivity.
  - reflexivity.
  - exact Hh.
Defined.

(** The wallet object does not survive a wrong password, neither on the
    completion of an open nor in a legacy import, and it does survive a
    failed save; and an [initAndLoad] that throws the wrong-password code
    inside [open] is followed by no request for the password. *)
Lemma wrong_password_tears_the_wallet_down :
  isOpen openWorld = true ∧
  (isOpen <$> onWalletInitCompleted exampleWrongPassword exampleWrongPassword
                [] openWorld) = Some false ∧
  isOpen legacyLoading = true ∧
  importLegacyKeys (nodeAdapter legacyLoading) (walletFile legacyLoading) []
    = ImportSystemError exampleWrongPassword ∧
  isOpen (importLegacyWallet exampleWrongPassword [] legacyLoading).2 = false ∧
  w_save failingWallet true true = ThrowsSystemError 5 ∧
  ((λ r, (r.1, isOpen r.2)) <$> save true true brokenWorld)
    = Some (false, true) ∧
  w_initAndLoad (createWallet (nodeAdapter lockedWorld)) (qstr "guess")
    = ThrowsSystemError exampleWrongPassword ∧
  isOpen (open exampleWrongPassword wildcardMatch (qstr "guess") lockedWorld)
    = false ∧
  history (open exampleWrongPassword wildcardMatch (qstr "guess") lockedWorld)
    = [Emit (walletStateChangedSignal (qstr "Opening wallet"));
       Lock; FileOpen (qstr "/home/wallet.wallet") true; FileClose; Unlock].
Proof. by vm_compute. Qed.

Lemma same_minute_backup_is_overwritten_witness :
  let destination := qstr "/data/backup/wallet.09-03-2017-14-05.wallet" in
  let w1 := backupOnOpen wildcardMatch freshWorld in
  let w2 := backupOnOpen wildcardMatch (set_env laterEnv w1) in
  fs w1 !! destination = Some (File (qstr "keys-and-cache") 1000) ∧
  fs w2 !! destination = Some (File (qstr "keys-and-cache") 1030) ∧
  length (backupEntries wildcardMatch w2) = 1%nat ∧
  1030 = copyTime laterEnv ∧
  ∃ t0, fs w1 !! walletFile freshWorld
        = Some (File (qstr "keys-and-cache") t0).
Proof.
  intros destination w1 w2.
  destruct (same_minute_backup_is_overwritten wildcardMatch freshWorld
              laterEnv eq_refl) as (_ & _ & Hfresh & Hover).
  assert (Hfirst : fs w1 !! destination
                   = Some (File (qstr "keys-and-cache") 1000))
    by (vm_compute; reflexivity).
  assert (Hsecond : fs w2 !! destination
                    = Some (File (qstr "keys-and-cache") 1030)).
  { destruct (Hover (qstr "/home") (qstr "wallet") (qstr "keys-and-cache") 900
                (qstr "keys-and-cache") 1000) as (_ & _ & Hkept).
    - by_evaluation.
    - vm_compute; reflexivity.
    - vm_compute; reflexivity.
    - exact Hfirst.
    - vm_compute; reflexivity.
    - vm_compute; reflexivity.
    - apply Hkept.
      apply (proj1 (Forall_forall
               (λ y, absoluteFilePath y ≠ backupDestination freshWorld →
                     lastModified y < copyTime laterEnv) _)).
      by_evaluation. }
  split; [exact Hfirst|]. split; [exact Hsecond|].
  split; [by vm_compute|].
  apply Hfresh. exact Hsecond.
Defined.


Lemma backup_of_wallet_file_is_timestamped_witness :
  backupDestination freshWorld
    = qstr "/data/backup/wallet.09-03-2017-14-05.wallet" ∧
  fs (backupCopy freshWorld)
    !! qstr "/data/backup/wallet.09-03-2017-14-05.wallet"
    = Some (File (qstr "keys-and-cache") 1000).
Proof.
  destruct (backup_of_wallet_file_is_timestamped freshWorld (qstr "/home")
              (qstr "wallet")) as [Hdest Hcopy].
  - by_evaluation.
  - by vm_compute.
  - split; [exact Hdest|].
    apply (Hcopy (qstr "keys-and-cache") 900).
    + by vm_compute.
    + by vm_compute.
    + left. by vm_compute.
    + by vm_compute.
Defined.

(** A legacy key file is backed up under its own name: the file name of
    its backup has no room for a time stamp. *)
Lemma legacy_backup_carries_no_timestamp :
  QFile_exists (fs legacyWorld) (walletFile legacyWorld) = true ∧
  backupDestination legacyWorld = qstr "/data/backup/wallet.keys" ∧
  fs (backupOnOpen wildcardMatch legacyWorld) !! qstr "/data/backup/wallet.keys"
    = Some (File (qstr "legacy-keys") 1000) ∧
  (∀ p, isFile (fs (backupOnOpen wildcardMatch legacyWorld)) p = true →
        isFile (fs legacyWorld) p = true ∨ p = qstr "/data/backup/wallet.keys") ∧
  ¬ ∃ name ext,
      fileName (backupDestination legacyWorld)
      = name ++ dateTimeStr (currentDateTime (env legacyWorld))
        ++ qstr "." ++ ext.
Proof.
  assert (Hdest : backupDestination legacyWorld
                  = qstr "/data/backup/wallet.keys") by (vm_compute; reflexivity).
  split; [vm_compute; reflexivity|]. split; [exact Hdest|].
  split; [vm_compute; reflexivity|]. split.
  - intros p Hp. rewrite <- Hdest. revert Hp.
    apply backupOnOpen_new_files.
  - rewrite Hdest. intros (name & ext & Heq). apply (f_equal length) in Heq.
    assert (Hlen : length (fileName (qstr "/data/backup/wallet.keys")) = 11%nat)
      by (vm_compute; reflexivity).
    rewrite Hlen, !length_app, dateTimeStr_length in Heq. lia.
Qed.

Lemma missing_backup_directory_is_created_witness :
  fs freshWorld !! backupDir freshWorld = None ∧
  fs (backupOnOpen wildcardMatch freshWorld) !! backupDir freshWorld
    = Some Dir ∧
  fs (backupCopy freshWorld) !! backupDestination freshWorld
    = Some (File (qstr "keys-and-cache") 1000).
Proof.
  destruct (missing_backup_directory_is_created exampleWrongPassword
              wildcardMatch freshWorld) as (Hdir & Hcopy & _).
  - by vm_compute.
  - by vm_compute.
  - split; [by vm_compute|]. split; [exact Hdir|].
    apply (Hcopy (qstr "/home") (qstr "wallet") (qstr "keys-and-cache") 900).
    + by_evaluation.
    + by vm_compute.
    + by vm_compute.
    + by vm_compute.
Defined.

Lemma queries_fall_back_to_defaults_witness :
  getAddress freshWorld = [] ∧ getActualBalance freshWorld = 0 ∧
  getPendingBalance freshWorld = 0 ∧
  getAddress brokenWorld = [] ∧ getActualBalance brokenWorld = 0 ∧
  getPendingBalance brokenWorld = 0 ∧
  getAddress openWorld = qstr "Ch1address" ∧ getActualBalance openWorld = 700.
Proof.
  destruct (queries_fall_back_to_defaults freshWorld) as [Hnone _].
  destruct (queries_fall_back_to_defaults brokenWorld) as [_ Hthrow].
  destruct (queries_fall_back_to_defaults openWorld) as [_ Hret].
  destruct (Hnone eq_refl) as (N1 & N2 & N3).
  destruct (Hthrow failingWallet eq_refl) as (T1 & T2 & T3 & _).
  destruct (Hret readyWallet eq_refl) as (_ & _ & _ & R1 & R2 & _).
  split; [exact N1|]. split; [exact N2|]. split; [exact N3|].
  split; [exact (T1 1 eq_refl)|]. split; [exact (T2 1 eq_refl)|].
  split; [exact (T3 1 eq_refl)|].
  split; [exact (R1 _ eq_refl)|exact (R2 _ eq_refl)].
Defined.

Lemma notifyAboutLastTransaction_emits_once_witness :
  m_lastWalletTransactionId pendingWorld = 7 ∧
  history (notifyAboutLastTransaction pendingWorld)
    = [Emit (walletTransactionCreatedSignal 7)] ∧
  history (notifyAboutLastTransaction (notifyAboutLastTransaction pendingWorld))
    = [Emit (walletTransactionCreatedSignal 7)].
Proof.
  pose proof (notifyAboutLastTransaction_emits_once pendingWorld) as H.
  cbv zeta in H. destruct H as (Hfirst & _ & _ & Hsecond).
  destruct Hfirst as [Hemit _]; [by vm_compute|].
  split; [by vm_compute|]. split; [exact Hemit|].
  rewrite Hsecond. exact Hemit.
Defined.

(** * Further properties *)

(** ** Backup rotation *)

Section MoreBackup.

Variable nameMatch : QString → QString → bool.

Implicit Types w : World.

Lemma set_fs_same w : set_fs (fs w) w = w.
Proof. by destruct w. Qed.

Lemma backupCopy_frame w p :
  p ≠ backupDir w → p ≠ backupDestination w →
  fs (backupCopy w) !! p = fs w !! p.
Proof.
  intros Hbd Hdest. rewrite backupCopy_fs, QFile_copy_lookup.
  assert (Hp : QFile_remove (QDir_mkdir (fs w) (backupDir w))
                 (backupDestination w) !! p = fs w !! p).
  { rewrite QFile_remove_lookup, QDir_mkdir_lookup.
    rewrite !decide_False; [done|by intros [? _]|by intros [? _]]. }
  destruct (QFile_remove _ _ !! walletFile w) as [[c t|]|]; try done.
  rewrite decide_False; [done|]. by intros [? _].
Qed.

(** X1.  [backupOnOpen] changes the file system only: no member, no
    setting and no event.  In the file system it leaves every path as it
    was that is not the backup directory, the destination of the copy, or
    an entry of the backup directory. *)
Theorem backupOnOpen_touches_only_the_backup_directory w p :
  p ≠ backupDir w →
  p ≠ backupDestination w →
  (∀ name, p ≠ filePath (backupDir w) name) →
  fs (backupOnOpen nameMatch w) !! p = fs w !! p ∧
  backupOnOpen nameMatch w = set_fs (fs (backupOnOpen nameMatch w)) w.
Proof.
  intros Hbd Hdest Hentry. split; [|done].
  unfold backupOnOpen. rewrite backupRetention_frame.
  - by apply backupCopy_frame.
  - intros x Hx Heq. apply elem_of_entryInfoList in Hx as (_ & _ & _ & Hp & _).
    apply (Hentry (info_fileName x)). by rewrite <- Heq.
Qed.

(** X2.  With at most ten files in the scan the rotation loop does
    nothing, and running the rotation a second time does nothing. *)
Theorem backupRetention_settles w :
  ((length (backupEntries nameMatch w) ≤ 10)%nat →
   backupRetention nameMatch w = w) ∧
  backupRetention nameMatch (backupRetention nameMatch w)
  = backupRetention nameMatch w.
Proof.
  assert (Hidle : ∀ v, (length (backupEntries nameMatch v) ≤ 10)%nat →
                       backupRetention nameMatch v = v).
  { intros v Hlen. unfold backupRetention. rewrite retentionLoop_drop.
    rewrite drop_ge by (simpl; lia). simpl. apply set_fs_same. }
  split; [apply Hidle|]. apply Hidle.
  rewrite backupRetention_Permutation, length_take. lia.
Qed.

(** X3.  A file of the scan that is strictly newer than every other file
    of the scan is kept by the rotation, as it is. *)
Theorem newest_backup_is_kept w x :
  x ∈ backupEntries nameMatch (backupCopy w) →
  (∀ y, y ∈ backupEntries nameMatch (backupCopy w) → y ≠ x →
        lastModified y < lastModified x) →
  x ∈ backupEntries nameMatch (backupOnOpen nameMatch w) ∧
  fs (backupOnOpen nameMatch w) !! absoluteFilePath x
  = fs (backupCopy w) !! absoluteFilePath x.
Proof.
  intros Hx Hnew.
  assert (Hkept : x ∈ backupEntries nameMatch (backupOnOpen nameMatch w)).
  { unfold backupOnOpen. apply backupRetention_kept.
    pose proof (entryInfoList_sorted nameMatch (fs (backupCopy w))
                  (backupDir (backupCopy w)) (backupFilter (backupCopy w)))
      as Hsorted.
    fold (backupEntries nameMatch (backupCopy w)) in Hsorted.
    destruct (backupEntries nameMatch (backupCopy w)) as [|y rest];
      [by apply elem_of_nil in Hx|].
    destruct (decide (y = x)) as [->|Hne]; [simpl; apply elem_of_cons; by left|].
    apply elem_of_cons in Hx as [->|Hx]; [done|].
    apply StronglySorted_cons in Hsorted as [Hall _].
    assert (Hyx : timeOrder y x).
    { rewrite Forall_forall in Hall. by apply Hall. }
    apply timeOrder_newer in Hyx.
    assert (lastModified y < lastModified x).
    { apply Hnew; [apply elem_of_cons; by left|done]. }
    lia. }
  split; [done|].
  apply elem_of_entryInfoList in Hkept as (_ & [c Hc] & _).
  unfold backupOnOpen in *.
  destruct (backupRetention_cases nameMatch (backupCopy w) (absoluteFilePath x))
    as [Heq|[Hn _]]; [done|congruence].
Qed.

End MoreBackup.

Lemma backupOnOpen_touches_only_the_backup_directory_witness :
  fs (backupOnOpen wildcardMatch crowdedWorld) !! qstr "/home/wallet.wallet"
  = fs crowdedWorld !! qstr "/home/wallet.wallet".
Proof.
  apply (backupOnOpen_touches_only_the_backup_directory wildcardMatch
           crowdedWorld (qstr "/home/wallet.wallet")).
  - by_evaluation.
  - by_evaluation.
  - intros name Heq. apply (f_equal (take 6)) in Heq. revert Heq.
    vm_compute. discriminate.
Defined.

Lemma newest_backup_is_kept_witness :
  fs (backupOnOpen wildcardMatch crowdedWorld)
    !! qstr "/data/backup/wallet.09-03-2017-14-05.wallet"
  = Some (File (qstr "keys-and-cache") 1000).
Proof.
  pose (x := mkInfo (qstr "/data/backup/wallet.09-03-2017-14-05.wallet")
               (qstr "wallet.09-03-2017-14-05.wallet") 1000).
  destruct (newest_backup_is_kept wildcardMatch crowdedWorld x) as [_ Hfs].
  - by_evaluation.
  - apply (proj1 (Forall_forall (λ y, y ≠ x → lastModified y < lastModified x) _)). by_evaluation.
  - change (absoluteFilePath x)
      with (qstr "/data/backup/wallet.09-03-2017-14-05.wallet") in Hfs.
    rewrite Hfs. vm_compute. reflexivity.
Defined.

(** ** Saving, end to end *)

Lemma section0_app_notin sep (a b : QString) :
  sep ∉ a → QStr.section0 sep (a ++ b) = a ++ QStr.section0 sep b.
Proof.
  induction a as [|c a IH]; intros Hnot; simpl; [done|].
  apply not_elem_of_cons in Hnot as [Hc Ha].
  rewrite bool_decide_eq_false_2 by congruence. by rewrite IH.
Qed.

Lemma fileName_app_suffix (p suf : QString) :
  slash ∉ suf → fileName (p ++ suf) = fileName p ++ suf.
Proof.
  intros Hsuf. unfold fileName. rewrite reverse_app, section0_app_notin.
  - by rewrite reverse_app, reverse_involutive.
  - by rewrite elem_of_reverse.
Qed.

Lemma fileName_length (p : QString) : (length (fileName p) ≤ length p)%nat.
Proof.
  unfold fileName. rewrite length_reverse, <- (length_reverse p).
  generalize (reverse p). intros l.
  induction l as [|c l IH]; simpl; [done|]. case_bool_decide; simpl; lia.
Qed.

Lemma parentPath_app_suffix (p suf : QString) :
  slash ∉ suf → parentPath (p ++ suf) = parentPath p.
Proof.
  intros Hsuf. unfold parentPath. rewrite fileName_app_suffix by done.
  rewrite !length_app. pose proof (fileName_length p).
  replace (length p + length suf - S (length (fileName p) + length suf))%nat
    with (length p - S (length (fileName p)))%nat by lia.
  apply take_app_le. lia.
Qed.

Lemma temp_no_slash : slash ∉ qstr ".temp".
Proof. by_evaluation. Qed.

Lemma dotWallet_no_slash : slash ∉ qstr ".wallet".
Proof. by_evaluation. Qed.

(** The file system after remove-then-rename, path by path. *)
Lemma promote_lookup (fs0 : FileSystem) (old new : QString) content t :
  old ≠ new →
  fs0 !! old = Some (File content t) →
  fs0 !! new ≠ Some Dir →
  isDir fs0 (parentPath new) = true →
  ∀ p, QFile_rename (QFile_remove fs0 new) old new !! p
       = if decide (p = new) then Some (File content t)
         else if decide (p = old) then None else fs0 !! p.
Proof.
  intros Hne Hold Hnodir Hpar p.
  set (fs1 := QFile_remove fs0 new).
  assert (H1 : fs1 !! new = None).
  { unfold fs1. rewrite QFile_remove_lookup. case_decide as Hd; [done|].
    destruct (fs0 !! new) as [[c' t'|]|] eqn:Hl; try done.
    exfalso. apply Hd. split; [done|]. apply isFile_true; eauto. }
  assert (H1o : ∀ q, q ≠ new → fs1 !! q = fs0 !! q).
  { intros q Hq. unfold fs1. rewrite QFile_remove_lookup.
    rewrite decide_False; [done|]. by intros [? _]. }
  assert (Hdir : isDir fs1 (parentPath new) = true).
  { destruct (parentPath new) as [|a d] eqn:Hp; [done|].
    apply isDir_cons. apply isDir_cons in Hpar.
    rewrite H1o; [done|]. intros Heq. rewrite Heq in Hpar. congruence. }
  rewrite QFile_rename_lookup, (H1o old), Hold by done.
  rewrite decide_True by done.
  repeat case_decide; try done. by apply H1o.
Qed.

Lemma canWrite_open (fs0 : FileSystem) (path : QString) (t : Z) :
  canWrite fs0 path = true →
  match fs0 !! path with
  | Some (File _ _) => True
  | Some Dir => False
  | None => isDir fs0 (parentPath path) = true
  end.
Proof. unfold canWrite. by destruct (fs0 !! path) as [[]|]. Qed.

(** [openFile] for writing on a closed stream. *)
Lemma openFile_write _file w :
  m_file w = None →
  canWrite (fs w) _file = true →
  openFile _file false w
  = (true,
     mkWorld (m_wallet w) true (Some (_file, false)) (m_isBackupInProgress w)
       (m_isSynchronized w) (m_lastWalletTransactionId w) (walletFile w)
       (dataDir w) (isEncrypted w)
       (<[_file := File [] (writeTime (env w))]> (fs w))
       (nodeAdapter w) (env w)
       (history w ++ [Lock; FileOpen _file false])).
Proof.
  intros Hfile Hcan. unfold canWrite in Hcan.
  unfold openFile, fstream_open, lock, unlock, is_open. cbn. rewrite Hfile.
  destruct (fs w !! _file) as [[c t|]|] eqn:Hl; [|done|rewrite Hcan];
    repeat (progress (cbn; rewrite ?Hfile));
    unfold set_m_file, set_fs, record, set_m_mutex; cbn;
    by rewrite <- app_assoc.
Qed.

(** A save that starts. *)
Lemma save_to_started _file _details _cache w wal bytes :
  m_wallet w = Some wal →
  m_file w = None →
  canWrite (fs w) _file = true →
  w_save wal _details _cache = Returns bytes →
  save_to _file _details _cache w
  = Some (true,
      mkWorld (m_wallet w) true (Some (_file, false)) (m_isBackupInProgress w)
        (m_isSynchronized w) (m_lastWalletTransactionId w) (walletFile w)
        (dataDir w) (isEncrypted w)
        (<[_file := File bytes (writeTime (env w))]> (fs w))
        (nodeAdapter w) (env w)
        (history w ++ [Lock; FileOpen _file false;
                       Emit (walletStateChangedSignal (qstr "Saving data"))])).
Proof.
  intros Hwal Hfile Hcan Hsave. unfold save_to.
  rewrite Hwal, openFile_write, Hsave by done.
  unfold emit, fstream_write, record, set_fs. cbn.
  by rewrite insert_insert_eq, <- app_assoc, ?Hwal.
Qed.

(** A save whose engine call throws. *)
Lemma save_to_thrown _file _details _cache w wal code :
  m_wallet w = Some wal →
  m_file w = None →
  canWrite (fs w) _file = true →
  w_save wal _details _cache = ThrowsSystemError code →
  save_to _file _details _cache w
  = Some (false,
      mkWorld (m_wallet w) false None (m_isBackupInProgress w)
        (m_isSynchronized w) (m_lastWalletTransactionId w) (walletFile w)
        (dataDir w) (isEncrypted w)
        (<[_file := File [] (writeTime (env w))]> (fs w))
        (nodeAdapter w) (env w)
        (history w ++ [Lock; FileOpen _file false; FileClose; Unlock])).
Proof.
  intros Hwal Hfile Hcan Hsave. unfold save_to.
  rewrite Hwal, openFile_write, Hsave by done.
  unfold closeFile, unlock, fstream_close, record, set_m_mutex, set_m_file.
  cbn. by rewrite <- !app_assoc, ?Hwal.
Qed.

(** X4.  A normal save that the engine completes without error ends with
    the bytes the engine wrote in the primary wallet file, no temporary
    file, the stream closed, the lock released as often as taken, and every
    other path as it was. *)
Theorem normal_save_reaches_the_wallet_file
  (w : World) (wal : IWalletLegacy) (_details _cache : bool)
  (bytes : QString) (_error : error_code) :
  m_wallet w = Some wal →
  m_file w = None →
  m_isBackupInProgress w = false →
  canWrite (fs w) (walletFile w ++ qstr ".temp") = true →
  fs w !! walletFile w ≠ Some Dir →
  isDir (fs w) (parentPath (walletFile w)) = true →
  w_save wal _details _cache = Returns bytes →
  ec_value _error = 0 →
  ∃ w1,
    save _details _cache w = Some (true, w1) ∧
    let w2 := saveCompleted _error w1 in
    fs w2 !! walletFile w = Some (File bytes (writeTime (env w))) ∧
    fs w2 !! (walletFile w ++ qstr ".temp") = None ∧
    (∀ p, p ≠ walletFile w → p ≠ walletFile w ++ qstr ".temp" →
          fs w2 !! p = fs w !! p) ∧
    is_open w2 = false ∧ m_mutex w2 = false ∧
    lockBalance (history w2) = lockBalance (history w) ∧
    m_wallet w2 = Some wal.
Proof.
  intros Hwal Hfile Hflag Hcan Hnodir Hpar Hsave Herr.
  eexists. split.
  { exact (save_to_started _ _ _ w wal bytes Hwal Hfile Hcan Hsave). }
  set (temp := walletFile w ++ qstr ".temp") in *.
  assert (Hne : temp ≠ walletFile w) by apply app_cons_ne.
  unfold saveCompleted, renameFile, closeFile, unlock, fstream_close, emit,
    is_open.
  cbn. rewrite Herr, Hflag. cbn. fold temp.
  set (fs0 := <[temp := File bytes (writeTime (env w))]> (fs w)).
  assert (Hlook : ∀ p, QFile_rename (QFile_remove fs0 (walletFile w)) temp
                         (walletFile w) !! p
                       = if decide (p = walletFile w)
                         then Some (File bytes (writeTime (env w)))
                         else if decide (p = temp) then None else fs0 !! p).
  { apply promote_lookup; [done| | |].
    - unfold fs0. by rewrite lookup_insert_eq.
    - unfold fs0. by rewrite lookup_insert_ne.
    - destruct (parentPath (walletFile w)) as [|a d] eqn:Hp; [done|].
      apply isDir_cons. apply isDir_cons in Hpar. unfold fs0.
      rewrite lookup_insert_ne; [done|]. intros Heq.
      rewrite <- Heq in Hpar. unfold canWrite in Hcan.
      by rewrite Hpar in Hcan. }
  split_and!; try done.
  - rewrite Hlook. by rewrite decide_True.
  - rewrite Hlook. rewrite decide_False by done. by rewrite decide_True.
  - intros p Hp Hpt. rewrite Hlook. rewrite !decide_False by done.
    unfold fs0. by rewrite lookup_insert_ne.
  - rewrite !lockBalance_app. simpl. lia.
Qed.

Lemma normal_save_reaches_the_wallet_file_witness :
  ∃ w1,
    save true true openWorld = Some (true, w1) ∧
    fs (saveCompleted noError w1) !! qstr "/home/wallet.wallet"
    = Some (File (qstr "wallet-bytes") 1000) ∧
    fs (saveCompleted noError w1) !! qstr "/home/wallet.wallet.temp" = None.
Proof.
  destruct (normal_save_reaches_the_wallet_file openWorld readyWallet true true
              (qstr "wallet-bytes") noError)
    as (w1 & Hsave & Hprimary & Htemp & _); try (vm_compute; reflexivity).
  - vm_compute. discriminate.
  - exists w1. split; [exact Hsave|]. split; [exact Hprimary|exact Htemp].
Defined.

(** X5.  A save that fails never reaches the primary wallet file.  A
    completion that reports an error leaves the whole file system as it
    is, the temporary file included.  A save whose engine call throws
    returns [false] with the stream closed and the lock released, the
    primary wallet file as it was, and an empty temporary file left
    behind. *)
Theorem failed_save_keeps_the_wallet_file
  (w : World) (wal : IWalletLegacy) (_details _cache : bool) :
  m_wallet w = Some wal →
  (∀ _error, ec_value _error ≠ 0 →
     fs (saveCompleted _error w) = fs w ∧
     m_isBackupInProgress (saveCompleted _error w) = false) ∧
  (∀ code,
     w_save wal _details _cache = ThrowsSystemError code →
     m_file w = None →
     canWrite (fs w) (walletFile w ++ qstr ".temp") = true →
     ∃ w1,
       save _details _cache w = Some (false, w1) ∧
       fs w1 !! walletFile w = fs w !! walletFile w ∧
       fs w1 !! (walletFile w ++ qstr ".temp")
       = Some (File [] (writeTime (env w))) ∧
       is_open w1 = false ∧ m_mutex w1 = false ∧
       lockBalance (history w1) = lockBalance (history w) ∧
       m_wallet w1 = Some wal).
Proof.
  intros Hwal. split.
  - intros _error Herr. unfold saveCompleted.
    destruct (Z.eqb_spec (ec_value _error) 0) as [|_]; [done|].
    by destruct (m_isBackupInProgress w) eqn:Hflag; cbn; rewrite ?Hflag.
  - intros code Hthrow Hfile Hcan. eexists. split.
    { exact (save_to_thrown _ _ _ w wal code Hwal Hfile Hcan Hthrow). }
    cbn. rewrite lookup_insert_eq, lookup_insert_ne by apply app_cons_ne.
    rewrite !lockBalance_app. simpl. split_and!; try done. lia.
Qed.

Lemma failed_save_keeps_the_wallet_file_witness :
  ∃ w1,
    save true true brokenWorld = Some (false, w1) ∧
    fs w1 !! qstr "/home/wallet.wallet"
    = Some (File (qstr "keys-and-cache") 900) ∧
    fs w1 !! qstr "/home/wallet.wallet.temp" = Some (File [] 1000).
Proof.
  destruct (failed_save_keeps_the_wallet_file brokenWorld failingWallet
              true true eq_refl) as [_ Hthrow].
  destruct (Hthrow 5) as (w1 & Hsave & Hprimary & Htemp & _);
    try (vm_compute; reflexivity).
  exists w1. split; [exact Hsave|]. split; [|exact Htemp].
  etrans; [exact Hprimary|]. vm_compute. reflexivity.
Defined.

(** X6.  [backup] writes to the file it is given when that ends in
    [.wallet], and to that name with [.wallet] appended otherwise.  When
    the engine returns, the backup flag is set, and the completion, with or
    without error, clears it and leaves the file system alone: the target
    holds the bytes the engine wrote and every other path what it held
    before.  So the wallet file keeps its content unless it is itself the
    target, in which case it is overwritten in place. *)
Theorem backup_writes_only_its_target
  (w : World) (wal : IWalletLegacy) (_file bytes : QString)
  (_error : error_code) :
  let target :=
    if QStr.endsWith _file (qstr ".wallet") then _file
    else _file ++ qstr ".wallet" in
  m_wallet w = Some wal →
  m_file w = None →
  canWrite (fs w) target = true →
  w_save wal true false = Returns bytes →
  QStr.endsWith target (qstr ".wallet") = true ∧
  ∃ w1,
    backup _file w = Some w1 ∧
    m_isBackupInProgress w1 = true ∧
    let w2 := saveCompleted _error w1 in
    fs w2 !! target = Some (File bytes (writeTime (env w))) ∧
    (∀ p, p ≠ target → fs w2 !! p = fs w !! p) ∧
    fs w2 !! walletFile w
    = (if decide (walletFile w = target)
       then Some (File bytes (writeTime (env w)))
       else fs w !! walletFile w) ∧
    m_isBackupInProgress w2 = false ∧
    is_open w2 = false ∧ m_mutex w2 = false ∧
    lockBalance (history w2) = lockBalance (history w).
Proof.
  intros target Hwal Hfile Hcan Hsave. split.
  - subst target. destruct (QStr.endsWith _file (qstr ".wallet")) eqn:Hends;
      [done|].
    unfold QStr.endsWith. apply bool_decide_eq_true_2. by apply suffix_app_r.
  - unfold backup. fold target.
    rewrite (save_to_started target true false w wal bytes) by done.
    eexists. split; [done|]. split; [done|].
    unfold saveCompleted, closeFile, unlock, fstream_close, emit, is_open.
    cbn. rewrite andb_false_r. cbn.
    rewrite lookup_insert_eq, !lockBalance_app. simpl.
    split_and!; try done; [| |lia].
    + intros p Hp. by rewrite lookup_insert_ne.
    + case_decide as Hwf.
      * by rewrite Hwf, lookup_insert_eq.
      * by rewrite lookup_insert_ne.
Qed.

Lemma backup_writes_only_its_target_witness :
  (∃ w1,
     backup (qstr "/home/copy") openWorld = Some w1 ∧
     fs (saveCompleted noError w1) !! qstr "/home/copy.wallet"
     = Some (File (qstr "wallet-bytes") 1000) ∧
     fs (saveCompleted noError w1) !! qstr "/home/wallet.wallet"
     = Some (File (qstr "keys-and-cache") 900)) ∧
  (∃ w1,
     backup (qstr "/home/wallet") openWorld = Some w1 ∧
     fs (saveCompleted noError w1) !! qstr "/home/wallet.wallet"
     = Some (File (qstr "wallet-bytes") 1000)).
Proof.
  split.
  - destruct (backup_writes_only_its_target openWorld readyWallet
                (qstr "/home/copy") (qstr "wallet-bytes") noError)
      as (_ & w1 & Hbackup & _ & Htarget & Hother & _);
      try (vm_compute; reflexivity).
    exists w1. split; [exact Hbackup|]. split; [exact Htarget|].
    etrans; [apply Hother|vm_compute; reflexivity]. vm_compute. discriminate.
  - destruct (backup_writes_only_its_target openWorld readyWallet
                (qstr "/home/wallet") (qstr "wallet-bytes") noError)
      as (_ & w1 & Hbackup & _ & Htarget & _);
      try (vm_compute; reflexivity).
    exists w1. split; [exact Hbackup|]. exact Htarget.
Defined.

(** The completion of a normal save, on a world whose temporary file is
    in place. *)
Lemma saveCompleted_promotes (v : World) (_error : error_code) content t :
  ec_value _error = 0 →
  m_isBackupInProgress v = false →
  fs v !! (walletFile v ++ qstr ".temp") = Some (File content t) →
  fs v !! walletFile v ≠ Some Dir →
  isDir (fs v) (parentPath (walletFile v)) = true →
  let v2 := saveCompleted _error v in
  (∀ p, fs v2 !! p
        = if decide (p = walletFile v) then Some (File content t)
          else if decide (p = walletFile v ++ qstr ".temp") then None
          else fs v !! p) ∧
  is_open v2 = false ∧ m_mutex v2 = false ∧
  lockBalance (history v2) = lockBalance (history v) - 1 ∧
  m_wallet v2 = m_wallet v ∧ isEncrypted v2 = isEncrypted v ∧
  walletFile v2 = walletFile v ∧
  m_lastWalletTransactionId v2 = m_lastWalletTransactionId v.
Proof.
  intros Herr Hflag Htemp Hnodir Hpar.
  unfold saveCompleted, renameFile, closeFile, unlock, fstream_close, emit,
    is_open.
  cbn. rewrite Herr, Hflag. cbn.
  split_and!; try done.
  - apply promote_lookup; try done. apply app_cons_ne.
  - rewrite !lockBalance_app. simpl. lia.
Qed.

Arguments save_to : simpl never.
Arguments saveCompleted : simpl never.

Section NewWallet.

Variable WRONG_PASSWORD : Z.
Variable nameMatch : QString → QString → bool.

(** X7.  [open] in front of a missing wallet file makes no backup and
    generates a wallet with the empty password, marked unencrypted whatever
    password was passed.  When the engine reports the initialisation and
    then the save as finished without error, the wallet file is on disk with
    the bytes the engine wrote, the wallet is open, and the lock has been
    released as often as taken. *)
Theorem new_wallet_is_generated_and_saved
  (w : World) (_password text bytes address : QString) (actual pending : Z) :
  let wal := createWallet (nodeAdapter w) in
  let temp := walletFile w ++ qstr ".temp" in
  QFile_exists (fs w) (walletFile w) = false →
  m_file w = None →
  m_isBackupInProgress w = false →
  canWrite (fs w) temp = true →
  isDir (fs w) (parentPath (walletFile w)) = true →
  w_initAndGenerate wal [] = Returns tt →
  w_actualBalance wal = Returns actual →
  w_pendingBalance wal = Returns pending →
  w_getAddress wal = Returns address →
  w_save wal true true = Returns bytes →
  let w1 := open WRONG_PASSWORD nameMatch _password w in
  let done := {| ec_value := 0; ec_message := text |} in
  fs w1 = fs w ∧ isEncrypted w1 = false ∧ m_wallet w1 = Some wal ∧
  ∃ w3,
    onWalletInitCompleted WRONG_PASSWORD 0 text (initCompleted done w1)
    = Some w3 ∧
    let w4 := saveCompleted done w3 in
    fs w4 !! walletFile w = Some (File bytes (writeTime (env w))) ∧
    (∀ p, p ≠ walletFile w → p ≠ temp → fs w4 !! p = fs w !! p) ∧
    isOpen w4 = true ∧ isEncrypted w4 = false ∧
    is_open w4 = false ∧ m_mutex w4 = false ∧
    lockBalance (history w4) = lockBalance (history w).
Proof.
  intros wal temp Hex Hfile Hflag Hcan Hpar Hgen Hact Hpend Haddr Hsave w1 done.
  assert (Hnone : fs w !! walletFile w = None).
  { unfold QFile_exists in Hex. by destruct (fs w !! walletFile w). }
  assert (Hw1 : w1 = setEncrypted false
                  (set_m_wallet (Some wal)
                     (emit (walletStateChangedSignal (qstr "Opening wallet"))
                        (setEncrypted (negb (QStr.isEmpty _password)) w)))).
  { unfold w1, open. cbn. fold wal. by rewrite Hex, Hgen. }
  rewrite Hw1. split; [done|]. split; [done|]. split; [done|].
  unfold initCompleted, is_open. cbn. rewrite Hfile.
  unfold onWalletInitCompleted. cbn. fold wal.
  rewrite Hact, Hpend, Haddr, Hex. cbn.
  unfold save. cbn. fold temp.
  erewrite (save_to_started temp true true _ wal bytes); try done.
  cbn. eexists. split; [done|].
  match goal with
  | |- context [saveCompleted done ?v] => set (v3 := v)
  end.
  destruct (saveCompleted_promotes v3 done bytes (writeTime (env w)))
    as (Hlook & Ho & Hm & Hb & Hwal & Henc & _).
  - done.
  - exact Hflag.
  - subst v3. cbn. fold temp. by rewrite lookup_insert_eq.
  - subst v3. cbn. fold temp. rewrite lookup_insert_ne by apply app_cons_ne.
    by rewrite Hnone.
  - subst v3.
    change (isDir (<[temp := File bytes (writeTime (env w))]> (fs w))
              (parentPath (walletFile w)) = true).
    destruct (parentPath (walletFile w)) as [|a d] eqn:Hp; [done|].
    apply isDir_cons. apply isDir_cons in Hpar. fold temp.
    rewrite lookup_insert_ne; [done|]. intros Heq.
    rewrite <- Heq in Hpar. unfold canWrite in Hcan. by rewrite Hpar in Hcan.
  - assert (F1 : walletFile v3 = walletFile w) by done.
    assert (F2 : fs v3 = <[temp := File bytes (writeTime (env w))]> (fs w))
      by done.
    assert (F3 : m_wallet v3 = Some wal) by done.
    assert (F4 : isEncrypted v3 = false) by done.
    assert (F5 : lockBalance (history v3) = lockBalance (history w) + 1).
    { subst v3. cbn. rewrite !lockBalance_app. simpl. lia. }
    clearbody v3. cbv zeta in *. unfold isOpen, is_open in *.
    rewrite F1, F2 in Hlook. fold temp in Hlook.
    rewrite Hwal, F3, Henc, F4, Ho, Hm, Hb, F5.
    split_and!; try done.
    + rewrite Hlook. by rewrite decide_True.
    + intros p Hp Hpt. rewrite Hlook, !decide_False by done.
      by rewrite lookup_insert_ne.
    + lia.
Qed.

End NewWallet.

Lemma new_wallet_is_generated_and_saved_witness :
  isEncrypted (open exampleWrongPassword wildcardMatch (qstr "secret") newWorld)
  = false ∧
  ∃ w3,
    onWalletInitCompleted exampleWrongPassword 0 []
      (initCompleted noError
         (open exampleWrongPassword wildcardMatch (qstr "secret") newWorld))
    = Some w3 ∧
    fs (saveCompleted noError w3) !! qstr "/home/new.wallet"
    = Some (File (qstr "wallet-bytes") 1000).
Proof.
  destruct (new_wallet_is_generated_and_saved exampleWrongPassword
              wildcardMatch newWorld (qstr "secret") [] (qstr "wallet-bytes")
              (qstr "Ch1address") 700 30)
    as (_ & Henc & _ & w3 & Hinit & Hfile & _);
    try (vm_compute; reflexivity).
  split; [exact Henc|]. exists w3. split; [exact Hinit|exact Hfile].
Defined.

(** ** Legacy import *)

Arguments openFile : simpl never.

Section LegacyImport.

Variable WRONG_PASSWORD : Z.

Lemma legacy_target (stem : QString) :
  QStr.replace (stem ++ qstr ".keys")
    (QStr.lastIndexOf (stem ++ qstr ".keys") (qstr ".keys")) 5 (qstr ".wallet")
  = stem ++ qstr ".wallet".
Proof.
  rewrite lastIndexOf_app by done.
  change 5 with (Z.of_nat (length (qstr ".keys"))). apply replace_suffix.
Qed.

(** X8.  A legacy import of [stem.keys] that the importer completes
    returns [true], makes [stem.wallet] the wallet file of the settings,
    leaves there the bytes the importer wrote, and leaves every other path,
    the key file included, the wallet object, and the lock balance as they
    were; the encrypted mark says whether a password was given. *)
Theorem legacy_import_converts_the_key_file
  (w : World) (stem _password bytes : QString) :
  let target := stem ++ qstr ".wallet" in
  walletFile w = stem ++ qstr ".keys" →
  m_file w = None →
  canWrite (fs w) target = true →
  importLegacyKeys (nodeAdapter w) (walletFile w) _password = ImportDone bytes →
  ∃ w1,
    importLegacyWallet WRONG_PASSWORD _password w = (true, w1) ∧
    walletFile w1 = target ∧
    fs w1 !! target = Some (File bytes (writeTime (env w))) ∧
    (∀ p, p ≠ target → fs w1 !! p = fs w !! p) ∧
    m_wallet w1 = m_wallet w ∧
    isEncrypted w1 = negb (QStr.isEmpty _password) ∧
    is_open w1 = false ∧ m_mutex w1 = false ∧
    lockBalance (history w1) = lockBalance (history w).
Proof.
  intros target Hwf Hfile Hcan Himport.
  unfold importLegacyWallet. rewrite Hwf, legacy_target. fold target.
  rewrite openFile_write by done. cbn.
  rewrite Himport.
  eexists. split; [done|].
  unfold fstream_write, closeFile, unlock, fstream_close, is_open. cbn.
  rewrite insert_insert_eq, lookup_insert_eq, !lockBalance_app. simpl.
  split_and!; try done; [|lia].
  intros p Hp. by rewrite lookup_insert_ne.
Qed.

(** X9.  The target of a legacy import is opened, and so emptied,
    before the importer runs: when the importer then throws, [stem.wallet]
    is an empty file, whatever it held; the call returns [false], the
    wallet file of the settings is still the key file, the wallet object is
    null, and every other path is as it was. *)
Theorem failed_legacy_import_empties_the_target
  (w : World) (stem _password : QString) :
  let target := stem ++ qstr ".wallet" in
  walletFile w = stem ++ qstr ".keys" →
  m_file w = None →
  canWrite (fs w) target = true →
  (∀ bytes, importLegacyKeys (nodeAdapter w) (walletFile w) _password
            ≠ ImportDone bytes) →
  ∃ w1,
    importLegacyWallet WRONG_PASSWORD _password w = (false, w1) ∧
    fs w1 !! target = Some (File [] (writeTime (env w))) ∧
    (∀ p, p ≠ target → fs w1 !! p = fs w !! p) ∧
    walletFile w1 = walletFile w ∧
    m_wallet w1 = None ∧
    is_open w1 = false ∧ m_mutex w1 = false ∧
    lockBalance (history w1) = lockBalance (history w).
Proof.
  intros target Hwf Hfile Hcan Himport.
  unfold importLegacyWallet. rewrite Hwf, legacy_target. fold target.
  rewrite openFile_write by done. cbn.
  destruct (importLegacyKeys (nodeAdapter w) (walletFile w) _password)
    as [bytes|code|]; [by destruct (Himport bytes)| |].
  - eexists. split; [done|].
    unfold closeFile, unlock, fstream_close, is_open.
    destruct (code =? WRONG_PASSWORD); cbn;
      rewrite lookup_insert_eq, !lockBalance_app; simpl;
      (split_and!; try done; [|lia]);
      intros p Hp; by rewrite lookup_insert_ne.
  - eexists. split; [done|].
    unfold closeFile, unlock, fstream_close, is_open. cbn.
    rewrite lookup_insert_eq, !lockBalance_app. simpl.
    split_and!; try done; [|lia].
    intros p Hp. by rewrite lookup_insert_ne.
Qed.

End LegacyImport.

Lemma legacy_import_converts_the_key_file_witness :
  ∃ w1,
    importLegacyWallet exampleWrongPassword (qstr "secret") legacyPair
    = (true, w1) ∧
    walletFile w1 = qstr "/home/old.wallet" ∧
    fs w1 !! qstr "/home/old.wallet"
    = Some (File (qstr "imported-wallet") 1000).
Proof.
  destruct (legacy_import_converts_the_key_file exampleWrongPassword
              legacyPair (qstr "/home/old") (qstr "secret")
              (qstr "imported-wallet"))
    as (w1 & Himport & Hwf & Hfs & _); try (vm_compute; reflexivity).
  exists w1. split; [exact Himport|]. split; [exact Hwf|exact Hfs].
Defined.

Lemma failed_legacy_import_empties_the_target_witness :
  fs legacyPair !! qstr "/home/old.wallet"
  = Some (File (qstr "earlier-wallet") 850) ∧
  ∃ w1,
    importLegacyWallet exampleWrongPassword (qstr "guess") legacyPair
    = (false, w1) ∧
    fs w1 !! qstr "/home/old.wallet" = Some (File [] 1000).
Proof.
  split; [vm_compute; reflexivity|].
  destruct (failed_legacy_import_empties_the_target exampleWrongPassword
              legacyPair (qstr "/home/old") (qstr "guess"))
    as (w1 & Himport & Hfs & _); try (vm_compute; reflexivity).
  - intros bytes. vm_compute. discriminate.
  - exists w1. split; [exact Himport|exact Hfs].
Defined.

(** ** Closing *)

Arguments save : simpl never.

Lemma save_shape (_details _cache : bool) (w : World) (wal : IWalletLegacy) :
  m_wallet w = Some wal →
  ∃ ok w1,
    save _details _cache w = Some (ok, w1) ∧
    m_wallet w1 = Some wal ∧ walletFile w1 = walletFile w ∧
    isEncrypted w1 = isEncrypted w ∧ dataDir w1 = dataDir w.
Proof.
  intros Hwal. unfold save, save_to. rewrite Hwal.
  destruct (openFile _ false w) as [ok0 w0] eqn:Hof. openFile_facts Hof.
  destruct ok0.
  - destruct (w_save wal _details _cache) as [bytes|code].
    + destruct (fstream_write_shape bytes w0) as (fs' & -> & _).
      do 2 eexists. split; [done|]. cbn. split_and!; congruence.
    + do 2 eexists. split; [done|]. cbn. split_and!; congruence.
  - do 2 eexists. split; [done|]. split_and!; congruence.
Qed.





(** ** Engine calls behind a wallet object *)

Lemma save_attempt (_details _cache : bool) (w : World) (wal : IWalletLegacy) :
  m_wallet w = Some wal →
  ∃ ok w1 rest,
    save _details _cache w = Some (ok, w1) ∧
    m_wallet w1 = Some wal ∧ isEncrypted w1 = isEncrypted w ∧
    history w1
    = history w ++ Lock :: FileOpen (walletFile w ++ qstr ".temp") false
                   :: rest.
Proof.
  intros Hwal. unfold save, save_to. rewrite Hwal.
  destruct (openFile _ false w) as [ok0 w0] eqn:Hof. openFile_facts Hof.
  destruct ok0.
  - destruct (w_save wal _details _cache) as [bytes|code].
    + destruct (fstream_write_shape bytes w0) as (fs' & -> & _).
      do 3 eexists. split; [done|]. cbn. rewrite Hhist, <- app_assoc.
      split_and!; try congruence. done.
    + do 3 eexists. split; [done|]. cbn. rewrite Hhist, <- !app_assoc.
      split_and!; try congruence. done.
  - do 3 eexists. split; [done|]. rewrite Hhist.
    split_and!; try congruence. done.
Qed.

Lemma eventsSince_app (w w' : World) (l : list Event) :
  history w' = history w ++ l → eventsSince w w' = l.
Proof. intros H. unfold eventsSince. rewrite H. apply drop_app_length. Qed.

Section MoreCalls.

Variable WRONG_PASSWORD : Z.
Variable calls : IWalletLegacy → WalletCalls.
Variable errorValue : WalletErrorCodes.t → Z.

(** X11.  [changePassword] returns [false] and changes nothing when the
    engine answers [WRONG_PASSWORD] or throws.  Every other answer of the
    engine, an error code included, counts as success: the encrypted mark
    is set from the new password and a save is attempted, whose result is
    returned. *)
Theorem changePassword_outcomes
  (w : World) (wal : IWalletLegacy) (_oldPassword _newPassword : QString) :
  m_wallet w = Some wal →
  let answer := c_changePassword (calls wal) _oldPassword _newPassword in
  let result :=
    changePassword WRONG_PASSWORD calls _oldPassword _newPassword w in
  (answer = Returns WRONG_PASSWORD → result = Some (false, w)) ∧
  (∀ code, answer = ThrowsSystemError code → result = Some (false, w)) ∧
  (∀ code, answer = Returns code → code ≠ WRONG_PASSWORD →
     ∃ ok w1 rest,
       result = Some (ok, w1) ∧
       isEncrypted w1 = negb (QStr.isEmpty _newPassword) ∧
       m_wallet w1 = Some wal ∧
       history w1
       = history w ++ Lock :: FileOpen (walletFile w ++ qstr ".temp") false
                      :: rest).
Proof.
  intros Hwal answer result. subst answer result. unfold changePassword.
  rewrite Hwal. split_and!.
  - intros ->. by rewrite Z.eqb_refl.
  - by intros code ->.
  - intros code -> Hne. destruct (Z.eqb_spec code WRONG_PASSWORD); [done|].
    destruct (save_attempt true true
                (setEncrypted (negb (QStr.isEmpty _newPassword)) w) wal Hwal)
      as (ok & w1 & rest & Hsave & Hw & Henc & Hhist).
    exists ok, w1, rest. by rewrite Hsave.
Qed.

(** X12.  [sendTransaction] takes the lock before the engine call.  When
    the call throws, the lock is released at once and nothing is emitted;
    when it returns, the lock stays held until [sendTransactionCompleted],
    which releases it and reports the transaction id with the error value
    and its message.  The file system is not touched. *)
Theorem sendTransaction_holds_the_lock_until_completion
  (w : World) (wal : IWalletLegacy) (_transfers : list WalletLegacyTransfer)
  (_fee : Z) (_paymentId : QString) (_mixin : Z) :
  m_wallet w = Some wal →
  ∃ w1,
    sendTransaction calls _transfers _fee _paymentId _mixin w = Some w1 ∧
    fs w1 = fs w ∧ m_wallet w1 = m_wallet w ∧
    match c_sendTransaction (calls wal) _transfers _fee _paymentId _mixin with
    | ThrowsSystemError _ =>
        history w1 = history w ++ [Lock; Unlock] ∧ m_mutex w1 = false
    | Returns _ =>
        history w1
        = history w
          ++ [Lock; Emit (walletStateChangedSignal (qstr "Sending transaction"))] ∧
        m_mutex w1 = true ∧
        ∀ _transaction_id _error s,
          world s = w1 →
          let s' := sendTransactionCompleted errorValue _transaction_id _error s in
          m_mutex (world s') = false ∧
          lockBalance (history (world s')) = lockBalance (history w) ∧
          fs (world s') = fs w ∧
          emitted s'
          = emitted s
            ++ [walletSendTransactionCompletedSignal _transaction_id
                  (ec_value _error)
                  (walletErrorMessage errorValue (ec_value _error))]
    end.
Proof.
  intros Hwal. unfold sendTransaction. rewrite Hwal.
  destruct (c_sendTransaction _ _ _ _ _) as [[]|code].
  - eexists. split; [done|]. unfold lock, emit. cbn.
    rewrite <- app_assoc. split_and!; try done.
    intros _transaction_id _error s ->.
    unfold sendTransactionCompleted, onWorld, emitMore, unlock, emit. cbn.
    rewrite !lockBalance_app. simpl. split_and!; try done. lia.
  - eexists. split; [done|]. unfold lock, unlock. cbn.
    rewrite <- app_assoc. by split_and!.
Qed.

(** X13.  The slot for a finished send announces the transaction and
    starts a save only when the send reported no error, the engine hands
    the transaction out, and it has a transfer; in every other case it
    leaves the adapter as it is. *)
Theorem finished_send_is_announced_only_with_transfers
  (w : World) (wal : IWalletLegacy) (_transactionId _error : Z)
  (_errorText : QString) :
  m_wallet w = Some wal →
  let result :=
    onWalletSendTransactionCompleted calls _transactionId _error _errorText w in
  (_error ≠ 0 → result = Some w) ∧
  (_error = 0 →
   match c_getTransaction (calls wal) _transactionId with
   | ThrowsSystemError _ => result = Some w
   | Returns None => result = Some w
   | Returns (Some transaction) =>
       if transferCount transaction =? 0 then result = Some w
       else
         ∃ w1 rest,
           result = Some w1 ∧
           history w1
           = history w
             ++ Emit (walletTransactionCreatedSignal _transactionId)
             :: Lock :: FileOpen (walletFile w ++ qstr ".temp") false :: rest
   end).
Proof.
  intros Hwal result. subst result.
  unfold onWalletSendTransactionCompleted, getTransaction. rewrite Hwal.
  split.
  - intros Hne. by destruct (Z.eqb_spec _error 0).
  - intros ->. simpl.
    destruct (c_getTransaction (calls wal) _transactionId) as [[t|]|code];
      try done.
    destruct (transferCount t =? 0); [done|].
    destruct (save_attempt true true
                (emit (walletTransactionCreatedSignal _transactionId) w) wal
                Hwal) as (ok & w1 & rest & Hsave & _ & _ & Hhist).
    exists w1, rest. rewrite Hsave. split; [done|].
    rewrite Hhist. cbn. by rewrite <- app_assoc.
Qed.

Lemma cases_complete (c : WalletErrorCodes.t) : In c WalletErrorCodes.cases.
Proof. destruct c; simpl; tauto. Qed.

(** X14.  With distinct values for the error names, as a [switch]
    requires of its labels, [walletErrorMessage] returns for the value of
    each name the text of its [case], and [Unknown error] for a value that
    belongs to no name. *)
Theorem walletErrorMessage_looks_the_code_up :
  (∀ c1 c2, errorValue c1 = errorValue c2 → c1 = c2) →
  (∀ c, walletErrorMessage errorValue (errorValue c) = WalletErrorCodes.text c) ∧
  (∀ code, (∀ c, errorValue c ≠ code) →
           walletErrorMessage errorValue code = qstr "Unknown error").
Proof.
  intros Hinj. unfold walletErrorMessage. split.
  - intros c.
    destruct (List.find _ WalletErrorCodes.cases) as [c'|] eqn:Hfind.
    + apply List.find_some in Hfind as [_ Heq].
      apply bool_decide_eq_true_1 in Heq. by rewrite (Hinj _ _ Heq).
    + pose proof (List.find_none _ _ Hfind c (cases_complete c)) as Hno.
      by apply bool_decide_eq_false_1 in Hno.
  - intros code Hcode.
    destruct (List.find _ WalletErrorCodes.cases) as [c'|] eqn:Hfind; [|done].
    apply List.find_some in Hfind as [_ Heq].
    apply bool_decide_eq_true_1 in Heq. by destruct (Hcode c').
Qed.

End MoreCalls.

Lemma exampleErrorValue_inj (c1 c2 : WalletErrorCodes.t) :
  exampleErrorValue c1 = exampleErrorValue c2 → c1 = c2.
Proof. destruct c1, c2; try reflexivity; vm_compute; discriminate. Qed.

Lemma exampleErrorValue_positive (c : WalletErrorCodes.t) :
  exampleErrorValue c ≠ 0.
Proof. destruct c; vm_compute; discriminate. Qed.

Lemma changePassword_outcomes_witness :
  m_wallet openWorld = Some readyWallet ∧
  changePassword exampleWrongPassword exampleCalls (qstr "guess")
    (qstr "next") openWorld = Some (false, openWorld) ∧
  ∃ ok w1,
    changePassword exampleWrongPassword exampleCalls (qstr "secret")
      (qstr "next") openWorld = Some (ok, w1) ∧
    isEncrypted w1 = true.
Proof.
  split; [reflexivity|]. split.
  - destruct (changePassword_outcomes exampleWrongPassword exampleCalls
                openWorld readyWallet (qstr "guess") (qstr "next") eq_refl)
      as (Hwrong & _ & _).
    apply Hwrong. vm_compute; reflexivity.
  - destruct (changePassword_outcomes exampleWrongPassword exampleCalls
                openWorld readyWallet (qstr "secret") (qstr "next") eq_refl)
      as (_ & _ & Hother).
    destruct (Hother 0) as (ok & w1 & rest & Hresult & Henc & _).
    + vm_compute; reflexivity.
    + vm_compute; discriminate.
    + exists ok, w1. split; [exact Hresult|exact Henc].
Defined.

Lemma sendTransaction_holds_the_lock_until_completion_witness :
  m_wallet openWorld = Some readyWallet ∧
  ∃ w1,
    sendTransaction exampleCalls [] 100 [] 0 openWorld = Some w1 ∧
    m_mutex w1 = true ∧
    m_mutex
      (world (sendTransactionCompleted exampleErrorValue 9 noError
                (mkSession w1 false []))) = false.
Proof.
  split; [reflexivity|].
  destruct (sendTransaction_holds_the_lock_until_completion exampleCalls
              exampleErrorValue openWorld readyWallet [] 100 [] 0 eq_refl)
    as (w1 & Hsend & _ & _ & Hcase).
  change (c_sendTransaction (exampleCalls readyWallet) [] 100 [] 0)
    with (Returns tt : Outcome unit) in Hcase.
  hnf in Hcase. destruct Hcase as (_ & Hmutex & Hdone).
  exists w1. split; [exact Hsend|]. split; [exact Hmutex|].
  destruct (Hdone 9 noError (mkSession w1 false []) eq_refl) as [Hfree _].
  exact Hfree.
Defined.

Lemma finished_send_is_announced_only_with_transfers_witness :
  m_wallet openWorld = Some readyWallet ∧
  onWalletSendTransactionCompleted exampleCalls 8 0 [] openWorld
  = Some openWorld ∧
  ∃ w1 rest,
    onWalletSendTransactionCompleted exampleCalls 7 0 [] openWorld = Some w1 ∧
    history w1
    = history openWorld
      ++ Emit (walletTransactionCreatedSignal 7)
      :: Lock :: FileOpen (walletFile openWorld ++ qstr ".temp") false :: rest.
Proof.
  split; [reflexivity|]. split.
  - destruct (finished_send_is_announced_only_with_transfers exampleCalls
                openWorld readyWallet 8 0 [] eq_refl) as [_ Hcase].
    specialize (Hcase eq_refl).
    change (c_getTransaction (exampleCalls readyWallet) 8)
      with (Returns (Some {| transferCount := 0 |})) in Hcase.
    exact Hcase.
  - destruct (finished_send_is_announced_only_with_transfers exampleCalls
                openWorld readyWallet 7 0 [] eq_refl) as [_ Hcase].
    specialize (Hcase eq_refl).
    change (c_getTransaction (exampleCalls readyWallet) 7)
      with (Returns (Some {| transferCount := 2 |})) in Hcase.
    exact Hcase.
Defined.

Lemma walletErrorMessage_looks_the_code_up_witness :
  walletErrorMessage exampleErrorValue
    (exampleErrorValue WalletErrorCodes.FEE_TOO_SMALL)
  = WalletErrorCodes.text WalletErrorCodes.FEE_TOO_SMALL ∧
  walletErrorMessage exampleErrorValue 0 = qstr "Unknown error".
Proof.
  destruct (walletErrorMessage_looks_the_code_up exampleErrorValue
              exampleErrorValue_inj) as [Hknown Hunknown].
  split; [apply Hknown|]. apply Hunknown. apply exampleErrorValue_positive.
Defined.

(** ** Announcing transactions *)

Lemma externalTransactionCreated_pending (w : World) (ids : list Z) :
  m_isSynchronized w = false →
  let w' := foldl (λ v id, externalTransactionCreated id v) w ids in
  m_isSynchronized w' = false ∧ history w' = history w ∧
  m_lastWalletTransactionId w'
  = default (m_lastWalletTransactionId w) (last ids).
Proof.
  revert w. induction ids as [|id ids IH]; intros w Hsync; [done|].
  simpl.
  assert (Hstep : externalTransactionCreated id w
                  = set_m_lastWalletTransactionId id w)
    by (unfold externalTransactionCreated; by rewrite Hsync).
  rewrite Hstep.
  destruct (IH (set_m_lastWalletTransactionId id w) Hsync)
    as (Hs & Hh & Hid).
  split; [exact Hs|]. split; [exact Hh|]. rewrite Hid.
  rewrite last_cons. by destruct (last ids).
Qed.

Lemma externalTransactionCreated_synchronized (w : World) (ids : list Z) :
  m_isSynchronized w = true →
  let w' := foldl (λ v id, externalTransactionCreated id v) w ids in
  history w'
  = history w ++ ((λ id, Emit (walletTransactionCreatedSignal id)) <$> ids) ∧
  m_lastWalletTransactionId w' = m_lastWalletTransactionId w.
Proof.
  revert w. induction ids as [|id ids IH]; intros w Hsync.
  { simpl. by rewrite app_nil_r. }
  simpl.
  assert (Hstep : externalTransactionCreated id w
                  = emit (walletTransactionCreatedSignal id) w)
    by (unfold externalTransactionCreated; by rewrite Hsync).
  rewrite Hstep.
  destruct (IH (emit (walletTransactionCreatedSignal id) w) Hsync)
    as (Hh & Hid).
  split; [|exact Hid]. rewrite Hh. cbn. by rewrite <- app_assoc.
Qed.

Lemma notifyAboutLastTransaction_events (w : World) :
  history (notifyAboutLastTransaction w)
  = history w
    ++ (if m_lastWalletTransactionId w =? quint64_max then []
        else [Emit (walletTransactionCreatedSignal
                      (m_lastWalletTransactionId w))]) ∧
  m_lastWalletTransactionId (notifyAboutLastTransaction w) = quint64_max ∧
  m_isSynchronized (notifyAboutLastTransaction w) = m_isSynchronized w.
Proof.
  unfold notifyAboutLastTransaction.
  destruct (Z.eqb_spec (m_lastWalletTransactionId w) quint64_max) as [He|];
    simpl; [|done].
  by rewrite app_nil_r.
Qed.

(** X15.  While the wallet is not synchronised, transactions reported by
    the engine raise no signal: only the last id of a run is remembered,
    and the next notification announces that one id, once, unless it equals
    the reserved value [quint64_max].  Once the wallet is synchronised
    every reported transaction is announced at once, in order, and nothing
    is remembered. *)
Theorem pending_transactions_are_coalesced (w : World) (ids : list Z) :
  let w' := foldl (λ v id, externalTransactionCreated id v) w ids in
  (m_isSynchronized w = false →
   let pending := default (m_lastWalletTransactionId w) (last ids) in
   history w' = history w ∧
   m_lastWalletTransactionId w' = pending ∧
   eventsSince w (notifyAboutLastTransaction w')
   = (if pending =? quint64_max then []
      else [Emit (walletTransactionCreatedSignal pending)]) ∧
   notifyAboutLastTransaction (notifyAboutLastTransaction w')
   = notifyAboutLastTransaction w') ∧
  (m_isSynchronized w = true →
   eventsSince w w'
   = (λ id, Emit (walletTransactionCreatedSignal id)) <$> ids ∧
   m_lastWalletTransactionId w' = m_lastWalletTransactionId w).
Proof.
  intros w'. split.
  - intros Hsync pending.
    destruct (externalTransactionCreated_pending w ids Hsync)
      as (_ & Hh & Hid).
    fold w' in Hh, Hid. fold pending in Hid.
    destruct (notifyAboutLastTransaction_events w') as (Hn & Hreset & _).
    split; [exact Hh|]. split; [exact Hid|]. split.
    + apply eventsSince_app. by rewrite Hn, Hh, Hid.
    + unfold notifyAboutLastTransaction at 1. by rewrite Hreset.
  - intros Hsync.
    destruct (externalTransactionCreated_synchronized w ids Hsync)
      as (Hh & Hid).
    split; [by apply eventsSince_app|exact Hid].
Qed.

(** X16.  A synchronisation that ends with an error changes nothing.  One
    that ends without error marks the wallet synchronised, asks for the
    block status and reports the completion; its slot stops the
    notification timer and announces the remembered transaction, after
    which a transaction reported by the engine is announced at once.  A
    progress report marks the wallet unsynchronised again and its slot
    leaves the timer running. *)
Theorem synchronization_completion_flushes_the_pending_transaction
  (s : Session) (_error : error_code) (_current _total : N) :
  (ec_value _error ≠ 0 → synchronizationCompleted _error s = s) ∧
  (ec_value _error = 0 →
   let s1 := onSynchronizationCompleted (synchronizationCompleted _error s) in
   let pending := m_lastWalletTransactionId (world s) in
   m_isSynchronized (world s1) = true ∧ timerActive s1 = false ∧
   m_lastWalletTransactionId (world s1) = quint64_max ∧
   emitted s1
   = emitted s
     ++ [updateBlockStatusTextSignal;
         walletSynchronizationCompletedSignal 0 (ec_message _error)] ∧
   eventsSince (world s) (world s1)
   = (if pending =? quint64_max then []
      else [Emit (walletTransactionCreatedSignal pending)]) ∧
   onNotificationTimeout s1 = s1 ∧
   ∀ id, eventsSince (world s1) (externalTransactionCreated id (world s1))
         = [Emit (walletTransactionCreatedSignal id)]) ∧
  (let s2 := onSynchronizationProgressUpdated
               (synchronizationProgressUpdated _current _total s) in
   m_isSynchronized (world s2) = false ∧ timerActive s2 = true ∧
   ∀ id, eventsSince (world s2) (externalTransactionCreated id (world s2))
         = [] ∧
         m_lastWalletTransactionId (externalTransactionCreated id (world s2))
         = id).
Proof.
  split_and!.
  - intros Hne. unfold synchronizationCompleted.
    by destruct (Z.eqb_spec (ec_value _error) 0).
  - intros He s1 pending. subst s1.
    unfold synchronizationCompleted. rewrite He. simpl.
    unfold onSynchronizationCompleted, onWorld, emitMore, setTimer. simpl.
    set (w0 := set_m_isSynchronized true (world s)).
    destruct (notifyAboutLastTransaction_events w0) as (Hn & Hreset & Hs).
    split; [by rewrite Hs|]. split; [done|]. split; [exact Hreset|].
    split; [by rewrite <- app_assoc|]. split; [by apply eventsSince_app|].
    split; [done|].
    intros id. apply eventsSince_app.
    unfold externalTransactionCreated. by rewrite Hs.
  - intros s2. subst s2.
    unfold onSynchronizationProgressUpdated, synchronizationProgressUpdated,
      onWorld, emitMore, setTimer. simpl.
    split; [by destruct (timerActive s)|].
    split; [by destruct (timerActive s)|].
    intros id. unfold externalTransactionCreated.
    destruct (timerActive s); simpl; split; try done;
      apply eventsSince_app; simpl; by rewrite app_nil_r.
Qed.

(** ** The status line *)

(** X17.  With the age of the last block a [qint64], the warning of
    [updateBlockStatusText] is shown exactly when the block is an hour old
    or older.  A block time in the future gives no warning, so the
    wrap-around of the unsigned [blockAge] is never printed.  When the
    warning is shown, the hours are at least one, the minutes are below
    sixty, and together they are the age rounded down to the minute. *)
Theorem block_age_warning_is_in_whole_minutes (b : BlockStatus) :
  - 2 ^ 63 ≤ msecsToNow b < 2 ^ 63 →
  (msecsToNow b < MSECS_IN_HOUR → warningString b = []) ∧
  (MSECS_IN_HOUR ≤ msecsToNow b →
   warningString b
   = qstr "  Warning: last block was received "
     ++ QNum.number (Z.to_N (blockAgeHours b)) ++ qstr " hours "
     ++ QNum.number (Z.to_N (blockAgeMinutes b)) ++ qstr " minutes ago" ∧
   1 ≤ blockAgeHours b ∧ 0 ≤ blockAgeMinutes b < 60 ∧
   blockAgeHours b * MSECS_IN_HOUR + blockAgeMinutes b * MSECS_IN_MINUTE
   = msecsToNow b - msecsToNow b mod MSECS_IN_MINUTE).
Proof.
  intros Hrange. unfold warningString, blockIsRecent,
    LAST_BLOCK_INFO_WARNING_INTERVAL.
  replace (1 * MSECS_IN_HOUR) with MSECS_IN_HOUR by lia.
  split.
  - intros Hlt. by destruct (Z.ltb_spec (msecsToNow b) MSECS_IN_HOUR); [|lia].
  - intros Hge.
    destruct (Z.ltb_spec (msecsToNow b) MSECS_IN_HOUR); [lia|].
    split; [done|].
    unfold blockAgeHours, blockAgeMinutes, blockAge, to_quint64.
    assert (Hpos : 0 ≤ msecsToNow b) by (unfold MSECS_IN_HOUR in Hge; lia).
    rewrite (Z.mod_small (msecsToNow b) (2 ^ 64)) by lia.
    unfold MSECS_IN_HOUR, MSECS_IN_MINUTE in *.
    change (60 * 60 * 1000) with 3600000 in *.
    change (60 * 1000) with 60000 in *.
    set (a := msecsToNow b) in *.
    pose proof (Z.div_mod a 3600000 ltac:(lia)) as Hh.
    pose proof (Z.mod_pos_bound a 3600000 ltac:(lia)) as Hhb.
    pose proof (Z.div_mod (a mod 3600000) 60000 ltac:(lia)) as Hm.
    pose proof (Z.mod_pos_bound (a mod 3600000) 60000 ltac:(lia)) as Hmb.
    assert (Hmm : a mod 60000 = (a mod 3600000) mod 60000).
    { symmetry.
      apply Z.mod_unique
        with (q := 60 * (a / 3600000) + a mod 3600000 / 60000); lia. }
    split_and!.
    + apply Z.div_le_lower_bound; lia.
    + apply Z.div_pos; lia.
    + apply Z.div_lt_upper_bound; lia.
    + lia.
Qed.

Lemma block_age_warning_is_in_whole_minutes_witness :
  warningString staleBlock
  = qstr "  Warning: last block was received 2 hours 5 minutes ago".
Proof.
  destruct (block_age_warning_is_in_whole_minutes staleBlock) as [_ Hold].
  { change (- 2 ^ 63 ≤ 7503000 < 2 ^ 63). lia. }
  destruct Hold as [Htext _].
  { change (3600000 ≤ 7503000). lia. }
  etrans; [exact Htext|]. vm_compute; reflexivity.
Defined.

(** X18.  While a wallet object is there, each run of
    [updateBlockStatusText] emits one status line and arms one further
    run after [LAST_BLOCK_INFO_UPDATING_INTERVAL].  After [close] or
    [reset] a run that was still armed does nothing and arms no further
    run. *)
Theorem status_refresh_ends_with_the_wallet (b : BlockStatus) (s : Session) :
  (isOpen (world s) = true →
   eventsSince (world s) (updateBlockStatusText b (world s))
   = [Emit (walletStateChangedSignal (blockStatusText b));
      SingleShot LAST_BLOCK_INFO_UPDATING_INTERVAL]) ∧
  (∀ _saveError s',
     close _saveError s = Some s' ∨ reset _saveError s = Some s' →
     updateBlockStatusText b (world s') = world s').
Proof.
  split.
  - unfold isOpen, updateBlockStatusText.
    destruct (m_wallet (world s)); [|done]. intros _.
    apply eventsSince_app. cbn. by rewrite <- app_assoc.
  - assert (Hnull : ∀ s', m_wallet (world s') = None →
                          updateBlockStatusText b (world s') = world s').
    { intros s' H. unfold updateBlockStatusText. by rewrite H. }
    intros _saveError s' Hdone. apply Hnull.
    unfold close, reset in Hdone.
    destruct (m_wallet (world s)) as [wal|] eqn:Hwal.
    2: { assert (Hnone : ∀ d c, save d c (world s) = None)
           by (intros; unfold save, save_to; by rewrite Hwal).
         rewrite !Hnone in Hdone. by destruct Hdone. }
    destruct (save_attempt true true (world s) wal Hwal)
      as (ok1 & w1 & r1 & Hs1 & _).
    destruct (save_attempt false false (world s) wal Hwal)
      as (ok2 & w2 & r2 & Hs2 & _).
    rewrite Hs1, Hs2 in Hdone.
    destruct Hdone as [[= <-]|[= <-]]; done.
Qed.

(** ** Opening a file that the rotation has deleted *)

(** X19.  [open] in front of an existing wallet file that is no [.keys]
    file tries to read the path after the backup has run.  When the
    rotation has deleted it by then, [open] releases the lock and returns
    with the wallet object in place though nothing was loaded: [isOpen]
    answers [true], and no signal reports the failure.  When the path is
    still there, the stream is opened and handed to [initAndLoad]: the lock
    stays held when that returns, and when it throws the stream is closed,
    the lock released and the wallet object deleted, without a signal. *)
Theorem open_without_a_readable_file_keeps_the_wallet_object
  (WRONG_PASSWORD : Z) (nameMatch : QString → QString → bool)
  (_password : QString) (w : World) :
  QFile_exists (fs w) (walletFile w) = true →
  QStr.endsWith (walletFile w) (qstr ".keys") = false →
  m_file w = None →
  let w1 := open WRONG_PASSWORD nameMatch _password w in
  let opening :=
    history w ++ [Emit (walletStateChangedSignal (qstr "Opening wallet"))] in
  fs w1 = fs (backupOnOpen nameMatch w) ∧
  (fs (backupOnOpen nameMatch w) !! walletFile w = None →
   isOpen w1 = true ∧ is_open w1 = false ∧ m_mutex w1 = false ∧
   history w1 = opening ++ [Lock; FileOpen (walletFile w) true; Unlock]) ∧
  (QFile_exists (fs (backupOnOpen nameMatch w)) (walletFile w) = true →
   match w_initAndLoad (createWallet (nodeAdapter w)) _password with
   | Returns _ =>
       isOpen w1 = true ∧ is_open w1 = true ∧ m_mutex w1 = true ∧
       history w1 = opening ++ [Lock; FileOpen (walletFile w) true]
   | ThrowsSystemError _ =>
       isOpen w1 = false ∧ is_open w1 = false ∧ m_mutex w1 = false ∧
       history w1
       = opening ++ [Lock; FileOpen (walletFile w) true; FileClose; Unlock]
   end).
Proof.
  intros Hex Hkeys Hfile w1 opening. subst w1 opening.
  rewrite open_existing_wallet by done.
  destruct (fs (backupOnOpen nameMatch w) !! walletFile w) as [n|] eqn:Hl.
  - assert (Hthere : QFile_exists (fs (backupOnOpen nameMatch w))
                       (walletFile w) = true)
      by (unfold QFile_exists; by rewrite Hl).
    rewrite loadWalletFile_there by done. cbv zeta.
    split_and!; [|done|].
    + by destruct (w_initAndLoad _ _).
    + intros _. destruct (w_initAndLoad _ _);
        unfold isOpen, is_open, closeFile, fstream_close, lock, unlock; cbn;
        rewrite <- ?app_assoc; by split_and!.
  - assert (Hgone : QFile_exists (fs (backupOnOpen nameMatch w))
                      (walletFile w) = false)
      by (unfold QFile_exists; by rewrite Hl).
    rewrite loadWalletFile_gone by done.
    split_and!; [done| |by rewrite Hgone].
    intros _. unfold isOpen, is_open, lock, unlock. cbn.
    rewrite Hfile, <- !app_assoc. by split_and!.
Qed.

Lemma open_without_a_readable_file_keeps_the_wallet_object_witness :
  QFile_exists (fs restoringWorld) (walletFile restoringWorld) = true ∧
  fs (backupOnOpen wildcardMatch restoringWorld) !! walletFile restoringWorld
  = None ∧
  isOpen (open exampleWrongPassword wildcardMatch [] restoringWorld) = true ∧
  is_open (open exampleWrongPassword wildcardMatch [] restoringWorld) = false.
Proof.
  assert (Hex : QFile_exists (fs restoringWorld) (walletFile restoringWorld)
                = true) by (vm_compute; reflexivity).
  assert (Hgone : fs (backupOnOpen wildcardMatch restoringWorld)
                    !! walletFile restoringWorld = None)
    by (vm_compute; reflexivity).
  split; [exact Hex|]. split; [exact Hgone|].
  destruct (open_without_a_readable_file_keeps_the_wallet_object
              exampleWrongPassword wildcardMatch [] restoringWorld Hex
              ltac:(vm_compute; reflexivity) eq_refl)
    as (_ & Hdeleted & _).
  destruct (Hdeleted Hgone) as (Hwallet & Hstream & _).
  split; [exact Hwallet|exact Hstream].
Defined.
